(** * A shallow embedding of the chat server (src/server.py)

    The server keeps two dictionaries behind one re-entrant lock:
    [_clients] (nickname -> session) and [_groups] (group name -> set of
    nicknames).  Every method of [ChatServer] that touches them is
    embedded below as a computation over the server state that also logs
    what it does to the outside world: taking and leaving the lock,
    writing to a socket, closing a socket.

    Python [str] values are modelled by [string]; a character of the
    model stands for the code point of the same number (U+0000 to
    U+00FF), and the classification tables are those of CPython on that
    range.  The stream read from a socket is the list of the decoded
    chunks returned by successive [recv] calls; the end of the list (or
    an empty chunk) is the empty read that signals a closed connection.

    [_send_line] swallows [OSError], so a write is logged whether or not
    it reaches the peer.  A [recv] that raises, and bytes that do not
    decode, are not represented: both end the handler through the same
    [finally] clause as a closed connection does. *)

From Stdlib Require Import Ascii String.
From stdpp Require Import gmap strings list fin_maps pretty sorting.

Open Scope string_scope.
Open Scope list_scope.

(** ** Python string primitives *)

Module PyStr.

Definition code (c : ascii) : N := N_of_ascii c.

Definition in_range (lo hi : N) (c : ascii) : bool :=
  ((lo <=? code c) && (code c <=? hi))%N.

(** Whitespace as seen by [str.strip()] and [str.split()]. *)
Definition char_isspace (c : ascii) : bool :=
  in_range 9 13 c || in_range 28 32 c
  || (code c =? 133)%N || (code c =? 160)%N.

(** [c.isalpha() or c.isdecimal() or c.isdigit() or c.isnumeric()]. *)
Definition char_isalnum (c : ascii) : bool :=
  in_range 48 57 c || in_range 65 90 c || in_range 97 122 c
  || (code c =? 170)%N || (code c =? 181)%N || (code c =? 186)%N
  || in_range 192 214 c || in_range 216 246 c || in_range 248 255 c
  || in_range 178 179 c || (code c =? 185)%N || in_range 188 190 c.

Definition char_lower (c : ascii) : ascii :=
  if in_range 65 90 c || (in_range 192 222 c && negb (code c =? 215)%N)
  then ascii_of_N (code c + 32)
  else c.

Definition NL : string := String "010"%char "".

Definition is_empty (s : string) : bool :=
  match s with "" => true | _ => false end.

Fixpoint all_chars (p : ascii → bool) (s : string) : bool :=
  match s with
  | "" => true
  | String c s' => p c && all_chars p s'
  end.

Fixpoint has_char (p : ascii → bool) (s : string) : bool :=
  match s with
  | "" => false
  | String c s' => p c || has_char p s'
  end.

(** [s.isalnum()]: every character is alphanumeric and there is at
    least one character. *)
Definition isalnum (s : string) : bool :=
  negb (is_empty s) && all_chars char_isalnum s.

Fixpoint lower (s : string) : string :=
  match s with
  | "" => ""
  | String c s' => String (char_lower c) (lower s')
  end.

(** [s.replace(c, "")] for a one-character [c]. *)
Fixpoint remove_char (c : ascii) (s : string) : string :=
  match s with
  | "" => ""
  | String d s' =>
      if Ascii.eqb d c then remove_char c s' else String d (remove_char c s')
  end.

Fixpoint lstrip (s : string) : string :=
  match s with
  | "" => ""
  | String c s' => if char_isspace c then lstrip s' else s
  end.

Fixpoint rstrip (s : string) : string :=
  match s with
  | "" => ""
  | String c s' =>
      match rstrip s' with
      | "" => if char_isspace c then "" else String c ""
      | r => String c r
      end
  end.

Definition strip (s : string) : string := rstrip (lstrip s).

(** [s.split()]: maximal runs of non-whitespace characters. *)
Fixpoint split_from (tok : string) (s : string) : list string :=
  match s with
  | "" => if is_empty tok then [] else [tok]
  | String c s' =>
      if char_isspace c
      then (if is_empty tok then split_from "" s' else tok :: split_from "" s')
      else split_from (tok +:+ String c "") s'
  end.

Definition split (s : string) : list string := split_from "" s.

Definition join (sep : string) (l : list string) : string :=
  String.concat sep l.

Definition startswith (s : string) (c : ascii) : bool :=
  match s with
  | String d _ => Ascii.eqb d c
  | "" => false
  end.

(** [sorted] on strings (code point order), as an insertion sort. *)
Fixpoint insert_sorted {A} (key : A → string) (x : A) (l : list A) : list A :=
  match l with
  | [] => [x]
  | y :: l' =>
      if String.leb (key x) (key y) then x :: l
      else y :: insert_sorted key x l'
  end.

Definition sorted_by {A} (key : A → string) (l : list A) : list A :=
  foldr (insert_sorted key) [] l.

Definition sorted (l : list string) : list string := sorted_by id l.

End PyStr.
Import PyStr.

(** ** Data model *)

(** A socket is an opaque handle; [peername] is what [getpeername()]
    answers for it. *)
Record sock : Type := Sock {
  fileno : nat;
  peername : string * N
}.

#[global] Instance sock_eq_dec : EqDecision sock.
Proof. solve_decision. Defined.

Record ClientSession : Type := mkClientSession {
  socket : sock;
  address : string * N
}.

#[global] Instance ClientSession_eq_dec : EqDecision ClientSession.
Proof. solve_decision. Defined.

(** The two dictionaries of [ChatServer].  [_groups] is a
    [defaultdict(set)]: only subscripting creates a missing entry. *)
Record ChatServer : Type := mkChatServer {
  _clients : gmap string ClientSession;
  _groups : gmap string (gset string)
}.

Definition init : ChatServer := mkChatServer ∅ ∅.

(** What a method does to the outside world, in program order. *)
Inductive event : Type :=
| Acquire
| Release
| Sendall (s : sock) (data : string)
| Close (s : sock).

#[global] Instance event_eq_dec : EqDecision event.
Proof. solve_decision. Defined.

(** ** The monad of server methods: state plus a log of events *)

Definition Act (A : Type) : Type := ChatServer → A * ChatServer * list event.

Definition ret {A} (a : A) : Act A := λ st, (a, st, []).

Definition bind {A B} (m : Act A) (k : A → Act B) : Act B :=
  λ st, let '(a, st1, tr1) := m st in
        let '(b, st2, tr2) := k a st1 in
        (b, st2, tr1 ++ tr2).

Notation "x <- m ;; k" := (bind m (λ x, k))
  (at level 100, m at next level, right associativity).
Notation "m ;; k" := (bind m (λ _, k))
  (at level 100, right associativity).

Definition emit (e : event) : Act unit := λ st, (tt, st, [e]).
Definition get_clients : Act (gmap string ClientSession) := λ st, (_clients st, st, []).
Definition get_groups : Act (gmap string (gset string)) := λ st, (_groups st, st, []).
Definition set_clients (cs : gmap string ClientSession) : Act unit :=
  λ st, (tt, mkChatServer cs (_groups st), []).
Definition set_groups (gs : gmap string (gset string)) : Act unit :=
  λ st, (tt, mkChatServer (_clients st) gs, []).

Definition result {A} (x : A * ChatServer * list event) : A := x.1.1.
Definition state {A} (x : A * ChatServer * list event) : ChatServer := x.1.2.
Definition trace {A} (x : A * ChatServer * list event) : list event := x.2.

(** [with self._lock: body].  The lock is released however the block is
    left, so a block that returns early or continues the enclosing loop
    hands that decision back as its value. *)
Definition with_lock {A} (body : Act A) : Act A :=
  emit Acquire ;; a <- body ;; emit Release ;; ret a.

(** How a [with] block was left: by running off its end with a value,
    or by a [return] / [continue] inside it. *)
Inductive exit (A : Type) : Type :=
| FallThrough (a : A)
| Leave.
Arguments FallThrough {A} a.
Arguments Leave {A}.

(** [for x in xs: body]. *)
Fixpoint for_each {A} (xs : list A) (body : A → Act unit) : Act unit :=
  match xs with
  | [] => ret tt
  | x :: xs' => body x ;; for_each xs' body
  end.

(** ** The methods of [ChatServer] *)

Definition _send_line (s : sock) (message : string) : Act unit :=
  emit (Sendall s (message +:+ NL)).

Definition help_lines : list string :=
  [ "Commands:";
    "  /help                             Show this help message";
    "  /list users                       Show all connected clients";
    "  /list groups                      Show all groups with members";
    "  /msg <user> <message>             Send a private message";
    "  /group create <name>              Create a new group (you join automatically)";
    "  /group join <name>                Join an existing group";
    "  /group leave <name>               Leave a group you're part of";
    "  /group send <name> <message>      Send a message to a group you're in";
    "  /quit                             Disconnect from the server" ].

Definition _send_help (client_sock : sock) : Act unit :=
  _send_line client_sock (join NL help_lines).

(** The reject test of the negotiation loop:
    [not candidate or not candidate.replace("_", "").isalnum()]. *)
Definition nickname_rejected (candidate : string) : bool :=
  is_empty candidate || negb (isalnum (remove_char "_" candidate)).

(** How one turn of the [while True] loop of [_negotiate_name] ends. *)
Inductive turn : Type :=
| ReturnNone
| Continue
| ReturnName (candidate : string).

(** One turn of the loop, on the chunk [data] returned by [recv]. *)
Definition negotiate_turn (client_sock : sock) (data : string) : Act turn :=
  if is_empty data then ret ReturnNone
  else
    let candidate := strip data in
    if String.eqb (lower candidate) "/quit" then
      _send_line client_sock "Goodbye!" ;; ret ReturnNone
    else if nickname_rejected candidate then
      _send_line client_sock
        "Nickname must be alphanumeric (underscores allowed). Try again:" ;;
      ret Continue
    else
      locked <- with_lock (
        cs <- get_clients ;;
        match cs !! candidate with
        | Some _ =>
            _send_line client_sock "Name already in use. Try another:" ;;
            ret Leave
        | None =>
            set_clients
              (<[candidate := mkClientSession client_sock (peername client_sock)]> cs) ;;
            ret (FallThrough tt)
        end) ;;
      match locked with
      | Leave => ret Continue
      | FallThrough _ =>
          _send_line client_sock
            ("Hello " +:+ candidate +:+ "! Type /help to see commands.") ;;
          ret (ReturnName candidate)
      end.

Fixpoint negotiate_loop (client_sock : sock) (stream : list string)
  : Act (option string * list string) :=
  match stream with
  | [] => ret (None, [])
  | data :: rest =>
      t <- negotiate_turn client_sock data ;;
      match t with
      | ReturnNone => ret (None, rest)
      | Continue => negotiate_loop client_sock rest
      | ReturnName candidate => ret (Some candidate, rest)
      end
  end.

(** [_negotiate_name]; the second component is what is left of the
    stream for the caller's own read loop. *)
Definition _negotiate_name (client_sock : sock) (stream : list string)
  : Act (option string * list string) :=
  _send_line client_sock
    "Enter a nickname (letters, numbers, underscores). Use /quit to abort." ;;
  negotiate_loop client_sock stream.

Definition _list_users (client_sock : sock) : Act unit :=
  names <- with_lock (cs <- get_clients ;; ret (sorted (map_to_list cs).*1)) ;;
  match names with
  | [] => _send_line client_sock "No connected users."
  | _ =>
      let users := join ", " names in
      _send_line client_sock
        ("Online users (" +:+ pretty (length names) +:+ "): " +:+ users)
  end.

Definition group_line (entry : string * gset string) : string :=
  let '(group, members) := entry in
  let joined := join ", " (sorted (elements members)) in
  let member_list := if is_empty joined then "(empty)" else joined in
  group +:+ ": " +:+ member_list.

(** [sorted(self._groups.items())]: the groups in the order they are
    listed. *)
Definition listed_groups (gs : gmap string (gset string))
  : list (string * gset string) :=
  sorted_by fst (map_to_list gs).

Definition _list_groups (client_sock : sock) : Act unit :=
  locked <- with_lock (
    gs <- get_groups ;;
    if bool_decide (gs = ∅) then
      _send_line client_sock "No groups have been created." ;;
      ret Leave
    else
      ret (FallThrough (map group_line (listed_groups gs)))) ;;
  match locked with
  | Leave => ret tt
  | FallThrough lines => _send_line client_sock (join NL lines)
  end.

Definition _send_private (sender target message : string) (client_sock : sock)
  : Act unit :=
  recipient <- with_lock (cs <- get_clients ;; ret (cs !! target)) ;;
  match recipient with
  | None => _send_line client_sock (target +:+ " is not online.")
  | Some r =>
      _send_line (socket r) ("[PM] " +:+ sender +:+ ": " +:+ message) ;;
      _send_line client_sock ("[PM -> " +:+ target +:+ "] " +:+ message)
  end.

(** [self._groups[group_name].add(name)] on the [defaultdict(set)]: a
    missing entry starts from the empty set. *)
Definition subscript_add (group_name name : string)
    (gs : gmap string (gset string)) : gmap string (gset string) :=
  <[group_name := default ∅ (gs !! group_name) ∪ {[name]}]> gs.

Definition _group_create (name group_name : string) (client_sock : sock)
  : Act unit :=
  locked <- with_lock (
    gs <- get_groups ;;
    match gs !! group_name with
    | Some _ =>
        _send_line client_sock "Group already exists." ;;
        ret Leave
    | None =>
        set_groups (subscript_add group_name name gs) ;;
        ret (FallThrough tt)
    end) ;;
  match locked with
  | Leave => ret tt
  | FallThrough _ =>
      _send_line client_sock
        ("Created group " +:+ group_name +:+ " and joined it.")
  end.

Definition _group_join (name group_name : string) (client_sock : sock)
  : Act unit :=
  locked <- with_lock (
    gs <- get_groups ;;
    match gs !! group_name with
    | None =>
        _send_line client_sock "Group does not exist." ;;
        ret Leave
    | Some _ =>
        set_groups (subscript_add group_name name gs) ;;
        ret (FallThrough tt)
    end) ;;
  match locked with
  | Leave => ret tt
  | FallThrough _ =>
      _send_line client_sock ("Joined group " +:+ group_name +:+ ".")
  end.

(** [members.remove(name)] or [members.discard(name)] on the set stored
    under [group], followed by [if not members: del self._groups[group]].
    The set is mutated in place, so the dictionary sees the removal. *)
Definition drop_member (name group : string) (members : gset string)
    (gs : gmap string (gset string)) : gmap string (gset string) :=
  let members' := members ∖ {[name]} in
  let gs' := <[group := members']> gs in
  if bool_decide (members' = ∅) then delete group gs' else gs'.

Definition _group_leave (name group_name : string) (client_sock : sock)
  : Act unit :=
  locked <- with_lock (
    gs <- get_groups ;;
    let refuse :=
      _send_line client_sock "You are not a member of that group." ;;
      ret Leave in
    match gs !! group_name with
    | None => refuse
    | Some members =>
        (* [not members or name not in members] *)
        if bool_decide (members = ∅) || bool_decide (name ∉ members) then refuse
        else
          set_groups (drop_member name group_name members gs) ;;
          ret (FallThrough tt)
    end) ;;
  match locked with
  | Leave => ret tt
  | FallThrough _ =>
      _send_line client_sock ("Left group " +:+ group_name +:+ ".")
  end.

Definition group_message (group_name sender message : string) : string :=
  "[Group:" +:+ group_name +:+ "] " +:+ sender +:+ ": " +:+ message.

Definition group_echo (group_name message : string) : string :=
  "[Group:" +:+ group_name +:+ "] (you): " +:+ message.

(** The body of [for member in members] in [_group_send]. *)
Definition group_deliver (sender group_name message member : string) : Act unit :=
  if bool_decide (member = sender) then ret tt
  else
    recipient <- with_lock (cs <- get_clients ;; ret (cs !! member)) ;;
    match recipient with
    | Some r => _send_line (socket r) (group_message group_name sender message)
    | None => ret tt
    end.

Definition _group_send (sender group_name message : string) (client_sock : sock)
  : Act unit :=
  members <- with_lock (
    gs <- get_groups ;; ret (default ∅ (gs !! group_name))) ;;
  if bool_decide (sender ∉ members) then
    _send_line client_sock "You must join the group before sending messages."
  else
    for_each (elements members) (group_deliver sender group_name message) ;;
    _send_line client_sock (group_echo group_name message).

Definition _broadcast_system (message : string) : Act unit :=
  recipients <- with_lock (cs <- get_clients ;; ret (map_to_list cs).*2) ;;
  for_each recipients
    (λ session, _send_line (socket session) ("[System] " +:+ message)).

(** The body of [for group, members in list(self._groups.items())]. *)
Definition purge_from (name : string) (entry : string * gset string) : Act unit :=
  let '(group, members) := entry in
  gs <- get_groups ;;
  set_groups (drop_member name group members gs).

Definition _remove_client (name : string) : Act unit :=
  with_lock (
    cs <- get_clients ;;
    let session := cs !! name in
    set_clients (delete name cs) ;;
    match session with
    | None => ret tt
    | Some _ =>
        gs <- get_groups ;;
        for_each (map_to_list gs) (purge_from name)
    end).

Definition _process_command (name raw : string) (client_sock : sock) : Act bool :=
  let tokens := split (strip raw) in
  match tokens with
  | [] => ret false
  | tok0 :: _ =>
      let cmd := lower tok0 in
      if String.eqb cmd "/help" then
        _send_help client_sock ;; ret false
      else if String.eqb cmd "/list" then
        (if (length tokens <? 2)%nat then
           _send_line client_sock "Usage: /list users|groups"
         else if String.eqb (lower (nth 1 tokens "")) "users" then
           _list_users client_sock
         else if String.eqb (lower (nth 1 tokens "")) "groups" then
           _list_groups client_sock
         else
           _send_line client_sock "Unknown list target. Use users or groups.") ;;
        ret false
      else if String.eqb cmd "/msg" then
        (if (length tokens <? 3)%nat then
           _send_line client_sock "Usage: /msg <nickname> <message>"
         else
           let target := nth 1 tokens "" in
           let text := join " " (drop 2 tokens) in
           _send_private name target text client_sock) ;;
        ret false
      else if String.eqb cmd "/group" then
        (if (length tokens <? 3)%nat then
           _send_line client_sock
             "Usage: /group create|join|leave|send <group_name> [message]"
         else
           let action := lower (nth 1 tokens "") in
           let group_name := nth 2 tokens "" in
           if String.eqb action "create" then
             _group_create name group_name client_sock
           else if String.eqb action "join" then
             _group_join name group_name client_sock
           else if String.eqb action "leave" then
             _group_leave name group_name client_sock
           else if String.eqb action "send" then
             if (length tokens <? 4)%nat then
               _send_line client_sock "Usage: /group send <group_name> <message>"
             else
               let message := join " " (drop 3 tokens) in
               _group_send name group_name message client_sock
           else
             _send_line client_sock
               "Unknown group action (create|join|leave|send).") ;;
        ret false
      else if String.eqb cmd "/quit" then
        _send_line client_sock "Disconnecting. Bye!" ;; ret true
      else
        _send_line client_sock "Unknown command. Use /help to see all options." ;;
        ret false
  end.

(** The [while True] read loop of [_handle_client]. *)
Fixpoint serve_loop (name : string) (client_sock : sock) (stream : list string)
  : Act unit :=
  match stream with
  | [] => ret tt
  | data :: rest =>
      if is_empty data then ret tt
      else
        let message := strip data in
        if is_empty message then serve_loop name client_sock rest
        else if startswith message "/" then
          should_close <- _process_command name message client_sock ;;
          if should_close : bool then ret tt
          else serve_loop name client_sock rest
        else
          _send_line client_sock
            "Unknown input. Use /help to see the list of supported commands." ;;
          serve_loop name client_sock rest
  end.

(** [_handle_client] on a connection whose peer sends [stream] and then
    closes.  The [finally] clause is the tail of both branches. *)
Definition _handle_client (client_sock : sock) (stream : list string) : Act unit :=
  _send_line client_sock "Welcome to the network lab chat server!" ;;
  negotiated <- _negotiate_name client_sock stream ;;
  match negotiated with
  | (None, _) => emit (Close client_sock)
  | (Some name, rest) =>
      _send_help client_sock ;;
      _broadcast_system (name +:+ " joined the chat.") ;;
      serve_loop name client_sock rest ;;
      emit (Close client_sock) ;;
      _remove_client name ;;
      _broadcast_system (name +:+ " left the chat.")
  end.

(** ** Runs of the server

    Handlers of different connections interleave, but every change of
    the dictionaries happens inside one critical section, so a run of the
    server is a sequence of method calls, each by some connection. *)
Inductive op : Type :=
| Negotiate (client_sock : sock) (data : string)
| Command (name raw : string) (client_sock : sock)
| ListUsers (client_sock : sock)
| ListGroups (client_sock : sock)
| SendPrivate (sender target message : string) (client_sock : sock)
| GroupCreate (name group_name : string) (client_sock : sock)
| GroupJoin (name group_name : string) (client_sock : sock)
| GroupLeave (name group_name : string) (client_sock : sock)
| GroupSend (sender group_name message : string) (client_sock : sock)
| Broadcast (message : string)
| RemoveClient (name : string).

Definition discard {A} (m : Act A) : Act unit := m ;; ret tt.

Definition perform (o : op) : Act unit :=
  match o with
  | Negotiate client_sock data => discard (negotiate_turn client_sock data)
  | Command name raw client_sock => discard (_process_command name raw client_sock)
  | ListUsers client_sock => _list_users client_sock
  | ListGroups client_sock => _list_groups client_sock
  | SendPrivate sender target message client_sock =>
      _send_private sender target message client_sock
  | GroupCreate name group_name client_sock => _group_create name group_name client_sock
  | GroupJoin name group_name client_sock => _group_join name group_name client_sock
  | GroupLeave name group_name client_sock => _group_leave name group_name client_sock
  | GroupSend sender group_name message client_sock =>
      _group_send sender group_name message client_sock
  | Broadcast message => _broadcast_system message
  | RemoveClient name => _remove_client name
  end.

Definition run (ops : list op) : Act unit := for_each ops perform.

(** The lines written to sockets, with their destination. *)
Definition sends (tr : list event) : list (sock * string) :=
  omap (λ e, match e with Sendall s data => Some (s, data) | _ => None end) tr.

(** A line as it goes on the wire. *)
Definition line (message : string) : string := message +:+ NL.

(** The group registry never holds a group without members. *)
Definition groups_nonempty (st : ChatServer) : Prop :=
  ∀ g ms, _groups st !! g = Some ms → ms ≠ ∅.

(** * Properties *)

(** ** Unfolding the monad *)

Ltac act_unfold :=
  unfold discard, with_lock, bind, ret, emit, get_clients, get_groups,
    set_clients, set_groups, _send_line, result, state, trace, line in *.

Ltac act_simpl := act_unfold; cbn [fst snd app _clients _groups] in *.

Section group_registry.
Context (cs : gmap string ClientSession) (gs : gmap string (gset string)).
Context (name group_name : string) (client_sock : sock).

Lemma group_create_exists ms :
  gs !! group_name = Some ms →
  _group_create name group_name client_sock (mkChatServer cs gs)
  = (tt, mkChatServer cs gs,
     [Acquire; Sendall client_sock (line "Group already exists."); Release]).
Proof. intros H. unfold _group_create. act_simpl. by rewrite H. Qed.

Lemma group_create_fresh :
  gs !! group_name = None →
  _group_create name group_name client_sock (mkChatServer cs gs)
  = (tt, mkChatServer cs (<[group_name := {[name]}]> gs),
     [Acquire; Release;
      Sendall client_sock
        (line ("Created group " +:+ group_name +:+ " and joined it."))]).
Proof.
  intros H. unfold _group_create, subscript_add. act_simpl. rewrite H. cbn.
  by rewrite (left_id_L ∅ (∪)).
Qed.

Lemma group_join_missing :
  gs !! group_name = None →
  _group_join name group_name client_sock (mkChatServer cs gs)
  = (tt, mkChatServer cs gs,
     [Acquire; Sendall client_sock (line "Group does not exist."); Release]).
Proof. intros H. unfold _group_join. act_simpl. by rewrite H. Qed.

Lemma group_join_exists ms :
  gs !! group_name = Some ms →
  _group_join name group_name client_sock (mkChatServer cs gs)
  = (tt, mkChatServer cs (<[group_name := ms ∪ {[name]}]> gs),
     [Acquire; Release;
      Sendall client_sock (line ("Joined group " +:+ group_name +:+ "."))]).
Proof. intros H. unfold _group_join, subscript_add. act_simpl. by rewrite H. Qed.

Lemma group_leave_missing :
  gs !! group_name = None →
  _group_leave name group_name client_sock (mkChatServer cs gs)
  = (tt, mkChatServer cs gs,
     [Acquire;
      Sendall client_sock (line "You are not a member of that group.");
      Release]).
Proof. intros H. unfold _group_leave. act_simpl. by rewrite H. Qed.

Lemma group_leave_stranger ms :
  gs !! group_name = Some ms → name ∉ ms →
  _group_leave name group_name client_sock (mkChatServer cs gs)
  = (tt, mkChatServer cs gs,
     [Acquire;
      Sendall client_sock (line "You are not a member of that group.");
      Release]).
Proof.
  intros H Hn. unfold _group_leave. act_simpl. rewrite H.
  rewrite (bool_decide_eq_true_2 (name ∉ ms)) by done.
  by rewrite orb_true_r.
Qed.

Lemma group_leave_member ms :
  gs !! group_name = Some ms → name ∈ ms →
  _group_leave name group_name client_sock (mkChatServer cs gs)
  = (tt, mkChatServer cs (drop_member name group_name ms gs),
     [Acquire; Release;
      Sendall client_sock (line ("Left group " +:+ group_name +:+ "."))]).
Proof.
  intros H Hn. unfold _group_leave. act_simpl. rewrite H.
  rewrite (bool_decide_eq_false_2 (ms = ∅)) by set_solver.
  rewrite (bool_decide_eq_false_2 (name ∉ ms)) by (intros ?; done).
  done.
Qed.
End group_registry.

(** What [drop_member] leaves under every key. *)
Lemma lookup_drop_member name group ms (gs : gmap string (gset string)) g :
  drop_member name group ms gs !! g
  = if decide (group = g)
    then (if decide (ms ∖ {[name]} = ∅) then None else Some (ms ∖ {[name]}))
    else gs !! g.
Proof.
  unfold drop_member. case_bool_decide as He.
  - rewrite lookup_delete. case_decide; [by rewrite decide_True|].
    by rewrite lookup_insert_ne.
  - rewrite lookup_insert. case_decide; [by rewrite decide_False|done].
Qed.

(** ** Laws of the monad *)

Section act_laws.
Context {A B : Type}.
Implicit Types (m : Act A) (k : A → Act B).

Lemma bind_unfold m k st :
  bind m k st
  = (result (k (result (m st)) (state (m st))),
     state (k (result (m st)) (state (m st))),
     trace (m st) ++ trace (k (result (m st)) (state (m st)))).
Proof.
  unfold bind, result, state, trace.
  destruct (m st) as [[a st1] tr1]; cbn.
  by destruct (k a st1) as [[b st2] tr2].
Qed.

Lemma state_bind m k st :
  state (bind m k st) = state (k (result (m st)) (state (m st))).
Proof. by rewrite bind_unfold. Qed.

Lemma trace_bind m k st :
  trace (bind m k st)
  = trace (m st) ++ trace (k (result (m st)) (state (m st))).
Proof. by rewrite bind_unfold. Qed.

Lemma result_bind m k st :
  result (bind m k st) = result (k (result (m st)) (state (m st))).
Proof. by rewrite bind_unfold. Qed.
End act_laws.

Lemma result_triple {A} (a : A) st tr : result (a, st, tr) = a.
Proof. done. Qed.

Lemma state_triple {A} (a : A) st tr : state (a, st, tr) = st.
Proof. done. Qed.

Lemma trace_triple {A} (a : A) st tr : trace (a, st, tr) = tr.
Proof. done. Qed.

Ltac triple := rewrite ?result_triple, ?state_triple, ?trace_triple.

(** A computation that keeps [P] true, and one that leaves the
    dictionaries alone. *)
Definition preserves (P : ChatServer → Prop) {A} (m : Act A) : Prop :=
  ∀ st, P st → P (state (m st)).

Definition readonly {A} (m : Act A) : Prop := ∀ st, state (m st) = st.

Lemma readonly_preserves P {A} (m : Act A) : readonly m → preserves P m.
Proof. intros H st HP. by rewrite H. Qed.

Lemma preserves_bind P {A B} (m : Act A) (k : A → Act B) :
  preserves P m → (∀ a, preserves P (k a)) → preserves P (bind m k).
Proof. intros Hm Hk st HP. rewrite state_bind. by apply Hk, Hm. Qed.

Lemma preserves_ret P {A} (a : A) : preserves P (ret a).
Proof. by intros st HP. Qed.

Lemma preserves_for_each P {A} (xs : list A) (body : A → Act unit) :
  (∀ x, preserves P (body x)) → preserves P (for_each xs body).
Proof.
  intros Hb. induction xs as [|x xs IH]; cbn [for_each].
  - apply preserves_ret.
  - apply preserves_bind; [apply Hb | intros _; apply IH].
Qed.

Lemma readonly_bind {A B} (m : Act A) (k : A → Act B) :
  readonly m → (∀ a, readonly (k a)) → readonly (bind m k).
Proof. intros Hm Hk st. by rewrite state_bind, Hk, Hm. Qed.

Lemma readonly_ret {A} (a : A) : readonly (ret a).
Proof. by intros st. Qed.

Lemma readonly_emit e : readonly (emit e).
Proof. by intros st. Qed.

Lemma readonly_send_line s message : readonly (_send_line s message).
Proof. apply readonly_emit. Qed.

Lemma readonly_get_clients : readonly get_clients.
Proof. by intros st. Qed.

Lemma readonly_get_groups : readonly get_groups.
Proof. by intros st. Qed.

Lemma readonly_with_lock {A} (body : Act A) : readonly body → readonly (with_lock body).
Proof.
  intros H. unfold with_lock.
  repeat first [ apply readonly_bind; [|intros ?] | apply readonly_emit
               | apply readonly_ret | exact H ].
Qed.

Lemma readonly_for_each {A} (xs : list A) (body : A → Act unit) :
  (∀ x, readonly (body x)) → readonly (for_each xs body).
Proof.
  intros Hb. induction xs as [|x xs IH]; cbn [for_each].
  - apply readonly_ret.
  - apply readonly_bind; [apply Hb | intros _; apply IH].
Qed.

Create HintDb readonly.
#[local] Hint Resolve readonly_ret readonly_emit readonly_send_line
  readonly_get_clients readonly_get_groups : readonly.

Ltac readonly_step :=
  first
    [ apply readonly_bind; [|intros ?]
    | apply readonly_with_lock
    | apply readonly_for_each; intros ?
    | solve [auto with readonly]
    | match goal with
      | |- readonly (match ?x with _ => _ end) => destruct x
      | |- readonly (if ?b then _ else _) => destruct b
      | |- readonly (let '(_, _) := ?x in _) => destruct x
      end ].

Ltac readonly_solve := repeat readonly_step.

Lemma readonly_send_help s : readonly (_send_help s).
Proof. unfold _send_help. readonly_solve. Qed.

Lemma readonly_list_users s : readonly (_list_users s).
Proof. unfold _list_users. readonly_solve. Qed.

Lemma readonly_list_groups s : readonly (_list_groups s).
Proof. unfold _list_groups. readonly_solve. Qed.

Lemma readonly_send_private sender target message s :
  readonly (_send_private sender target message s).
Proof. unfold _send_private. readonly_solve. Qed.

Lemma readonly_group_deliver sender group_name message member :
  readonly (group_deliver sender group_name message member).
Proof. unfold group_deliver. readonly_solve. Qed.

Lemma readonly_group_send sender group_name message s :
  readonly (_group_send sender group_name message s).
Proof.
  unfold _group_send. readonly_solve. apply readonly_group_deliver.
Qed.

Lemma readonly_broadcast_system message : readonly (_broadcast_system message).
Proof. unfold _broadcast_system. readonly_solve. Qed.

#[local] Hint Resolve readonly_send_help readonly_list_users readonly_list_groups
  readonly_send_private readonly_group_send readonly_broadcast_system : readonly.

(** ** Strings *)

(** The characters a nickname may contain. *)
Definition nickname_char (c : ascii) : bool :=
  char_isalnum c || Ascii.eqb c "_".

Lemma all_chars_remove_underscore s :
  all_chars char_isalnum (remove_char "_" s) = all_chars nickname_char s.
Proof.
  induction s as [|c s IH]; [done|]. cbn [remove_char all_chars].
  unfold nickname_char at 1. destruct (Ascii.eqb c "_") eqn:E.
  - by rewrite IH, orb_true_r.
  - cbn [all_chars]. by rewrite IH, orb_false_r.
Qed.

Lemma isalnum_remove_underscore s :
  isalnum (remove_char "_" s)
  = all_chars nickname_char s && has_char char_isalnum s.
Proof.
  unfold isalnum. induction s as [|c s IH]; [done|].
  cbn [remove_char all_chars has_char]. unfold nickname_char at 1.
  destruct (Ascii.eqb c "_") eqn:E.
  - apply Ascii.eqb_eq in E as ->. rewrite IH. cbn.
    by destruct (all_chars nickname_char s).
  - cbn [is_empty negb all_chars]. rewrite all_chars_remove_underscore.
    rewrite orb_false_r. cbn.
    destruct (char_isalnum c); cbn; [by rewrite andb_true_r|done].
Qed.

(** The reject test, read character by character: a candidate passes
    when all its characters are letters, digits or underscores and one
    of them is a letter or a digit. *)
Lemma nickname_rejected_chars candidate :
  nickname_rejected candidate
  = negb (all_chars nickname_char candidate && has_char char_isalnum candidate).
Proof.
  unfold nickname_rejected. rewrite isalnum_remove_underscore.
  by destruct candidate.
Qed.

Lemma startswith_inv s c : startswith s c = true → ∃ s', s = String c s'.
Proof.
  destruct s as [|d s']; [done|]. cbn. intros ->%Ascii.eqb_eq. by exists s'.
Qed.

Lemma startswith_slash_rejected candidate :
  startswith candidate "/" = true → nickname_rejected candidate = true.
Proof.
  intros [s' ->]%startswith_inv. by rewrite nickname_rejected_chars.
Qed.

Lemma strip_startswith_slash data :
  startswith data "/" = true → startswith (strip data) "/" = true.
Proof.
  intros [s' ->]%startswith_inv. unfold strip. cbn [lstrip].
  change (char_isspace "/") with false. cbn [rstrip startswith].
  by destruct (rstrip s').
Qed.

Lemma lower_quit_nonempty data :
  lower (strip data) = "/quit" → is_empty data = false.
Proof. by destruct data. Qed.

(** ** Nickname negotiation, turn by turn *)

Section negotiate.
Context (client_sock : sock) (st : ChatServer).
Implicit Types data candidate : string.

Lemma turn_closed : negotiate_turn client_sock "" st = (ReturnNone, st, []).
Proof. done. Qed.

Lemma turn_quit data :
  lower (strip data) = "/quit" →
  negotiate_turn client_sock data st
  = (ReturnNone, st, [Sendall client_sock (line "Goodbye!")]).
Proof.
  intros H. unfold negotiate_turn.
  rewrite (lower_quit_nonempty _ H), H. done.
Qed.

Lemma turn_rejected data :
  is_empty data = false →
  lower (strip data) ≠ "/quit" →
  nickname_rejected (strip data) = true →
  negotiate_turn client_sock data st
  = (Continue, st,
     [Sendall client_sock
        (line "Nickname must be alphanumeric (underscores allowed). Try again:")]).
Proof.
  intros Hd Hq%String.eqb_neq Hr. unfold negotiate_turn.
  by rewrite Hd, Hq, Hr.
Qed.

Lemma turn_taken data session :
  is_empty data = false →
  lower (strip data) ≠ "/quit" →
  nickname_rejected (strip data) = false →
  _clients st !! strip data = Some session →
  negotiate_turn client_sock data st
  = (Continue, st,
     [Acquire;
      Sendall client_sock (line "Name already in use. Try another:");
      Release]).
Proof.
  intros Hd Hq%String.eqb_neq Hr Hc. unfold negotiate_turn.
  rewrite Hd, Hq, Hr. act_simpl. by rewrite Hc.
Qed.

Lemma turn_registered data :
  is_empty data = false →
  lower (strip data) ≠ "/quit" →
  nickname_rejected (strip data) = false →
  _clients st !! strip data = None →
  negotiate_turn client_sock data st
  = (ReturnName (strip data),
     mkChatServer
       (<[strip data := mkClientSession client_sock (peername client_sock)]>
          (_clients st))
       (_groups st),
     [Acquire; Release;
      Sendall client_sock
        (line ("Hello " +:+ strip data +:+ "! Type /help to see commands."))]).
Proof.
  intros Hd Hq%String.eqb_neq Hr Hc. unfold negotiate_turn.
  rewrite Hd, Hq, Hr. act_simpl. by rewrite Hc.
Qed.

(** A turn either leaves the dictionaries alone and returns no name,
    or registers the stripped chunk, which passed the reject test. *)
Lemma turn_cases data :
  (state (negotiate_turn client_sock data st) = st
   ∧ ∀ c, result (negotiate_turn client_sock data st) ≠ ReturnName c)
  ∨ (nickname_rejected (strip data) = false
     ∧ _clients st !! strip data = None
     ∧ result (negotiate_turn client_sock data st) = ReturnName (strip data)
     ∧ state (negotiate_turn client_sock data st)
       = mkChatServer
           (<[strip data := mkClientSession client_sock (peername client_sock)]>
              (_clients st))
           (_groups st)).
Proof.
  destruct (is_empty data) eqn:Hd.
  { left. destruct data; [|done]. by rewrite turn_closed. }
  destruct (decide (lower (strip data) = "/quit")) as [Hq|Hq].
  { left. by rewrite turn_quit. }
  destruct (nickname_rejected (strip data)) eqn:Hr.
  { left. by rewrite turn_rejected. }
  destruct (_clients st !! strip data) as [session|] eqn:Hc.
  { left. by erewrite turn_taken. }
  right. by rewrite turn_registered.
Qed.
End negotiate.

(** ** Disconnect cleanup *)

(** What is left of a member set once [name] is gone: nothing when the
    set became empty. *)
Definition purged (name : string) (ms : gset string) : option (gset string) :=
  if decide (ms ∖ {[name]} = ∅) then None else Some (ms ∖ {[name]}).

Definition purge_entry (name : string)
    (gs : gmap string (gset string)) (entry : string * gset string) :=
  drop_member name entry.1 entry.2 gs.

Lemma purge_from_eq name g ms cs gs :
  purge_from name (g, ms) (mkChatServer cs gs)
  = (tt, mkChatServer cs (drop_member name g ms gs), []).
Proof. done. Qed.

Lemma for_each_purge_from name cs entries gs :
  for_each entries (purge_from name) (mkChatServer cs gs)
  = (tt, mkChatServer cs (foldl (purge_entry name) gs entries), []).
Proof.
  revert gs. induction entries as [|[g ms] entries IH]; intros gs; [done|].
  cbn [for_each foldl]. rewrite bind_unfold, purge_from_eq.
  unfold result, state, trace. cbn [fst snd]. by rewrite IH.
Qed.

Lemma lookup_foldl_purge name entries (gs : gmap string (gset string)) g :
  NoDup entries.*1 →
  foldl (purge_entry name) gs entries !! g
  = match (list_to_map entries : gmap string (gset string)) !! g with
    | Some ms => purged name ms
    | None => gs !! g
    end.
Proof.
  revert gs. induction entries as [|[k ms] entries IH]; intros gs Hnd.
  { cbn. by rewrite lookup_empty. }
  apply NoDup_cons in Hnd as [Hk Hnd]. cbn [foldl].
  rewrite list_to_map_cons, IH by done. unfold purge_entry. cbn [fst snd].
  rewrite lookup_insert. case_decide as Hkg.
  - subst g. rewrite (not_elem_of_list_to_map_1 _ _ Hk).
    rewrite lookup_drop_member. by rewrite decide_True.
  - destruct (list_to_map entries !! g); [done|].
    rewrite lookup_drop_member. by rewrite decide_False.
Qed.

Lemma purge_all_omap name (gs : gmap string (gset string)) :
  foldl (purge_entry name) gs (map_to_list gs) = omap (purged name) gs.
Proof.
  apply map_eq. intros g.
  rewrite lookup_foldl_purge by apply NoDup_fst_map_to_list.
  rewrite list_to_map_to_list, lookup_omap.
  by destruct (gs !! g).
Qed.

Lemma remove_client_present name cs gs session :
  cs !! name = Some session →
  _remove_client name (mkChatServer cs gs)
  = (tt, mkChatServer (delete name cs) (omap (purged name) gs),
     [Acquire; Release]).
Proof.
  intros H. unfold _remove_client. act_simpl. rewrite H.
  rewrite for_each_purge_from. cbn. by rewrite purge_all_omap.
Qed.

Lemma remove_client_absent name cs gs :
  cs !! name = None →
  _remove_client name (mkChatServer cs gs)
  = (tt, mkChatServer cs gs, [Acquire; Release]).
Proof.
  intros H. unfold _remove_client. act_simpl. rewrite H. cbn.
  by rewrite delete_id.
Qed.

(** ** Fan-out *)

Lemma sends_app tr1 tr2 : sends (tr1 ++ tr2) = sends tr1 ++ sends tr2.
Proof. apply omap_app. Qed.

Lemma for_each_send_line {A} (xs : list A) (dest : A → sock) message st :
  for_each xs (λ x, _send_line (dest x) message) st
  = (tt, st, map (λ x, Sendall (dest x) (line message)) xs).
Proof.
  induction xs as [|x xs IH]; [done|].
  cbn [for_each]. rewrite bind_unfold.
  change (state (_send_line (dest x) message st)) with st.
  rewrite IH. done.
Qed.

(** The line a snapshot member gets, if any. *)
Definition delivery (cs : gmap string ClientSession)
    (sender group_name message member : string) : option (sock * string) :=
  if bool_decide (member = sender) then None
  else (λ r, (socket r, line (group_message group_name sender message)))
         <$> cs !! member.

Lemma group_deliver_eq sender group_name message member st :
  state (group_deliver sender group_name message member st) = st
  ∧ sends (trace (group_deliver sender group_name message member st))
    = option_list (delivery (_clients st) sender group_name message member).
Proof.
  unfold group_deliver, delivery. case_bool_decide; [done|].
  act_simpl. by destruct (_clients st !! member).
Qed.

Lemma for_each_group_deliver sender group_name message members st :
  state (for_each members (group_deliver sender group_name message) st) = st
  ∧ sends (trace (for_each members (group_deliver sender group_name message) st))
    = omap (delivery (_clients st) sender group_name message) members.
Proof.
  induction members as [|member members [IHs IHt]]; [done|].
  cbn [for_each]. rewrite state_bind, trace_bind, sends_app.
  destruct (group_deliver_eq sender group_name message member st) as [-> ->].
  rewrite IHs, IHt. split; [done|].
  cbn [omap list_omap]. by destruct (delivery _ _ _ _ member).
Qed.

(** The members of a snapshot that get the message: everyone but the
    sender who has a session. *)
Definition recipients (cs : gmap string ClientSession) (sender : string)
    (members : list string) : list string :=
  filter (λ member, member ≠ sender ∧ is_Some (cs !! member)) members.

Lemma recipients_deliveries cs sender group_name message members :
  Forall2
    (λ member d, ∃ r, cs !! member = Some r
       ∧ d = (socket r, line (group_message group_name sender message)))
    (recipients cs sender members)
    (omap (delivery cs sender group_name message) members).
Proof.
  unfold recipients. induction members as [|member members IH]; [constructor|].
  cbn [omap list_omap]. rewrite filter_cons. unfold delivery at 1.
  case_bool_decide as Hs.
  - rewrite decide_False by (intros [? _]; done). done.
  - destruct (cs !! member) as [r|] eqn:Hr; cbn.
    + rewrite decide_True by (split; [done|by eexists]).
      constructor; [by exists r|done].
    + rewrite decide_False by (intros [_ [? ?]]; done). done.
Qed.

Lemma group_send_stranger sender group_name message client_sock st :
  sender ∉ default ∅ (_groups st !! group_name) →
  _group_send sender group_name message client_sock st
  = (tt, st,
     [Acquire; Release;
      Sendall client_sock
        (line "You must join the group before sending messages.")]).
Proof.
  intros H. unfold _group_send. act_simpl.
  by rewrite bool_decide_eq_true_2.
Qed.

Lemma group_send_member sender group_name message client_sock st :
  sender ∈ default ∅ (_groups st !! group_name) →
  state (_group_send sender group_name message client_sock st) = st
  ∧ sends (trace (_group_send sender group_name message client_sock st))
    = omap (delivery (_clients st) sender group_name message)
        (elements (default ∅ (_groups st !! group_name)))
      ++ [(client_sock, line (group_echo group_name message))].
Proof.
  intros H. split; [apply readonly_group_send|].
  unfold _group_send. rewrite trace_bind.
  set (snapshot := with_lock _).
  assert (snapshot st = (default ∅ (_groups st !! group_name), st, [Acquire; Release]))
    as -> by done.
  triple. rewrite bool_decide_eq_false_2 by (intros ?; done).
  rewrite trace_bind, !sends_app.
  destruct (for_each_group_deliver sender group_name message
              (elements (default ∅ (_groups st !! group_name))) st) as [-> ->].
  done.
Qed.

(** ** What each mutation does to the dictionaries *)

Lemma group_create_cases name group_name client_sock st :
  state (_group_create name group_name client_sock st) = st
  ∨ (_groups st !! group_name = None
     ∧ state (_group_create name group_name client_sock st)
       = mkChatServer (_clients st) (<[group_name := {[name]}]> (_groups st))).
Proof.
  destruct st as [cs gs]. cbn [_clients _groups].
  destruct (gs !! group_name) as [ms|] eqn:H.
  - left. by erewrite group_create_exists.
  - right. by rewrite group_create_fresh.
Qed.

Lemma group_join_cases name group_name client_sock st :
  state (_group_join name group_name client_sock st) = st
  ∨ (∃ ms, _groups st !! group_name = Some ms
     ∧ state (_group_join name group_name client_sock st)
       = mkChatServer (_clients st)
           (<[group_name := ms ∪ {[name]}]> (_groups st))).
Proof.
  destruct st as [cs gs]. cbn [_clients _groups].
  destruct (gs !! group_name) as [ms|] eqn:H.
  - right. exists ms. by erewrite group_join_exists.
  - left. by rewrite group_join_missing.
Qed.

Lemma group_leave_cases name group_name client_sock st :
  state (_group_leave name group_name client_sock st) = st
  ∨ (∃ ms, _groups st !! group_name = Some ms ∧ name ∈ ms
     ∧ state (_group_leave name group_name client_sock st)
       = mkChatServer (_clients st)
           (drop_member name group_name ms (_groups st))).
Proof.
  destruct st as [cs gs]. cbn [_clients _groups].
  destruct (gs !! group_name) as [ms|] eqn:H.
  - destruct (decide (name ∈ ms)).
    + right. exists ms. by erewrite group_leave_member.
    + left. by erewrite group_leave_stranger.
  - left. by rewrite group_leave_missing.
Qed.

Lemma remove_client_cases name st :
  state (_remove_client name st) = st
  ∨ (is_Some (_clients st !! name)
     ∧ state (_remove_client name st)
       = mkChatServer (delete name (_clients st))
           (omap (purged name) (_groups st))).
Proof.
  destruct st as [cs gs]. cbn [_clients _groups].
  destruct (cs !! name) as [session|] eqn:H.
  - right. split; [done|]. by erewrite remove_client_present.
  - left. by rewrite remove_client_absent.
Qed.

(** ** The command dispatcher keeps whatever the group operations keep *)

Section dispatch.
Context (P : ChatServer → Prop).
Hypothesis create_ok : ∀ n g s, preserves P (_group_create n g s).
Hypothesis join_ok : ∀ n g s, preserves P (_group_join n g s).
Hypothesis leave_ok : ∀ n g s, preserves P (_group_leave n g s).

Lemma process_command_preserves name raw client_sock :
  preserves P (_process_command name raw client_sock).
Proof.
  unfold _process_command.
  repeat first
    [ apply preserves_ret
    | apply create_ok | apply join_ok | apply leave_ok
    | apply readonly_preserves; solve [auto with readonly]
    | apply preserves_bind; [|intros ?]
    | match goal with
      | |- preserves _ (match ?x with _ => _ end) => destruct x
      end ].
Qed.
End dispatch.

(** ** Invariants of a run *)

(** Every registered nickname passed the reject test. *)
Definition names_valid (st : ChatServer) : Prop :=
  ∀ n, is_Some (_clients st !! n) → nickname_rejected n = false.

Lemma purged_nonempty name ms ms' : purged name ms = Some ms' → ms' ≠ ∅.
Proof. unfold purged. case_decide; naive_solver. Qed.

Lemma groups_nonempty_create n g s : preserves groups_nonempty (_group_create n g s).
Proof.
  intros st Hst. destruct (group_create_cases n g s st) as [->|[_ ->]]; [done|].
  intros g' ms. cbn. rewrite lookup_insert. case_decide.
  - intros [= <-]. set_solver.
  - apply Hst.
Qed.

Lemma groups_nonempty_join n g s : preserves groups_nonempty (_group_join n g s).
Proof.
  intros st Hst. destruct (group_join_cases n g s st) as [->|(ms0 & _ & ->)]; [done|].
  intros g' ms. cbn. rewrite lookup_insert. case_decide.
  - intros [= <-]. set_solver.
  - apply Hst.
Qed.

Lemma groups_nonempty_leave n g s : preserves groups_nonempty (_group_leave n g s).
Proof.
  intros st Hst.
  destruct (group_leave_cases n g s st) as [->|(ms0 & _ & _ & ->)]; [done|].
  intros g' ms. cbn. rewrite lookup_drop_member. case_decide.
  - apply purged_nonempty.
  - apply Hst.
Qed.

Lemma groups_nonempty_remove_client n : preserves groups_nonempty (_remove_client n).
Proof.
  intros st Hst. destruct (remove_client_cases n st) as [->|[_ ->]]; [done|].
  intros g ms. cbn. rewrite lookup_omap.
  destruct (_groups st !! g) as [ms0|]; [|done]. apply purged_nonempty.
Qed.

Lemma groups_nonempty_turn s data :
  preserves groups_nonempty (negotiate_turn s data).
Proof.
  intros st Hst. destruct (turn_cases s st data) as [[-> _]|(_ & _ & _ & ->)]; done.
Qed.

Lemma groups_nonempty_perform o : preserves groups_nonempty (perform o).
Proof.
  destruct o; cbn [perform]; unfold discard;
    first
      [ apply readonly_preserves; solve [auto with readonly]
      | apply groups_nonempty_create | apply groups_nonempty_join
      | apply groups_nonempty_leave | apply groups_nonempty_remove_client
      | apply preserves_bind; [|intros ?; apply preserves_ret] ].
  - apply groups_nonempty_turn.
  - apply process_command_preserves;
      auto using groups_nonempty_create, groups_nonempty_join, groups_nonempty_leave.
Qed.

Lemma names_valid_clients st st' :
  _clients st' = _clients st → names_valid st → names_valid st'.
Proof. unfold names_valid. by intros ->. Qed.

Lemma names_valid_create n g s : preserves names_valid (_group_create n g s).
Proof.
  intros st. apply names_valid_clients.
  by destruct (group_create_cases n g s st) as [->|[_ ->]].
Qed.

Lemma names_valid_join n g s : preserves names_valid (_group_join n g s).
Proof.
  intros st. apply names_valid_clients.
  by destruct (group_join_cases n g s st) as [->|(? & _ & ->)].
Qed.

Lemma names_valid_leave n g s : preserves names_valid (_group_leave n g s).
Proof.
  intros st. apply names_valid_clients.
  by destruct (group_leave_cases n g s st) as [->|(? & _ & _ & ->)].
Qed.

Lemma names_valid_remove_client n : preserves names_valid (_remove_client n).
Proof.
  intros st Hst. destruct (remove_client_cases n st) as [->|[_ ->]]; [done|].
  intros m. cbn. rewrite lookup_delete. case_decide; [by intros [? ?]|apply Hst].
Qed.

Lemma names_valid_turn s data : preserves names_valid (negotiate_turn s data).
Proof.
  intros st Hst.
  destruct (turn_cases s st data) as [[-> _]|(Hok & _ & _ & ->)]; [done|].
  intros m. cbn. rewrite lookup_insert. case_decide; [by subst|apply Hst].
Qed.

Lemma names_valid_perform o : preserves names_valid (perform o).
Proof.
  destruct o; cbn [perform]; unfold discard;
    first
      [ apply readonly_preserves; solve [auto with readonly]
      | apply names_valid_create | apply names_valid_join
      | apply names_valid_leave | apply names_valid_remove_client
      | apply preserves_bind; [|intros ?; apply preserves_ret] ].
  - apply names_valid_turn.
  - apply process_command_preserves;
      auto using names_valid_create, names_valid_join, names_valid_leave.
Qed.

Lemma run_preserves P ops :
  (∀ o, preserves P (perform o)) → preserves P (run ops).
Proof. apply preserves_for_each. Qed.

(** ** A concrete run, used to exercise the theorems *)

Module Scenario.
Definition sock_A : sock := Sock 4 ("10.0.0.1", 50001%N).
Definition sock_B : sock := Sock 5 ("10.0.0.2", 50002%N).
Definition sock_C : sock := Sock 6 ("10.0.0.3", 50003%N).

(** A, B and C are connected. *)
Definition connected : ChatServer :=
  state (run [Negotiate sock_A "A"; Negotiate sock_B "B"; Negotiate sock_C "C"] init).

(** A has created the group [team], which B and C have joined, and a
    group [solo] of its own. *)
Definition team : ChatServer :=
  state (run [Command "A" "/group create team" sock_A;
              Command "B" "/group join team" sock_B;
              Command "C" "/group join team" sock_C;
              Command "A" "/group create solo" sock_A] connected).

(** The same, with C gone without the groups hearing of it. *)
Definition team_stale : ChatServer :=
  mkChatServer (delete "C" (_clients team)) (_groups team).
End Scenario.

(** The two scenarios of the specification, run through the command
    dispatcher: with A, B and C connected, A creates [team], B joins and
    A sends "hello"; then A writes to D, who is not connected. *)
Example scenario_commands :
  sends (trace (run [Command "A" "/group create team" Scenario.sock_A;
                     Command "B" "/group join team" Scenario.sock_B;
                     Command "A" "/group send team hello" Scenario.sock_A;
                     Command "A" "/msg D hi" Scenario.sock_A]
                  Scenario.connected))
  = [(Scenario.sock_A, line "Created group team and joined it.");
     (Scenario.sock_B, line "Joined group team.");
     (Scenario.sock_B, line "[Group:team] A: hello");
     (Scenario.sock_A, line "[Group:team] (you): hello");
     (Scenario.sock_A, line "D is not online.")].
Proof. vm_compute. reflexivity. Qed.

(** A whole connection: two refused nicknames, a registration, a group,
    a line that is not a command, and "/quit"; what follows "/quit" is
    never read, and the cleanup leaves the dictionaries empty. *)
Example scenario_connection :
  let out :=
    _handle_client Scenario.sock_A
      ["  "; "/x"; "bob_1"; "/group create g"; "hi"; "/QUIT"; "/list users"] init in
  state out = init
  ∧ map snd (sends (trace out))
    = [line "Welcome to the network lab chat server!";
       line "Enter a nickname (letters, numbers, underscores). Use /quit to abort.";
       line "Nickname must be alphanumeric (underscores allowed). Try again:";
       line "Nickname must be alphanumeric (underscores allowed). Try again:";
       line "Hello bob_1! Type /help to see commands.";
       line (join NL help_lines);
       line "[System] bob_1 joined the chat.";
       line "Created group g and joined it.";
       line "Unknown input. Use /help to see the list of supported commands.";
       line "Disconnecting. Bye!"].
Proof. split; vm_compute; reflexivity. Qed.

(** ** C1: group send *)

Lemma recipients_spec cs sender (members : gset string) member :
  member ∈ recipients cs sender (elements members)
  ↔ member ∈ members ∧ member ≠ sender ∧ is_Some (cs !! member).
Proof.
  unfold recipients. rewrite list_elem_of_filter, elem_of_elements. tauto.
Qed.



(** The same run, evaluated: A's message reaches B and is echoed to A; C,
    who is in the group but has no session, is skipped; a stranger gets
    the error line and nobody else hears of it. *)
Example scenario_group_send :
  sends (trace (_group_send "A" "team" "hello" Scenario.sock_A Scenario.team_stale))
  = [(Scenario.sock_B, line "[Group:team] A: hello");
     (Scenario.sock_A, line "[Group:team] (you): hello")]
  ∧ sends (trace (_group_send "D" "team" "hello" Scenario.sock_C Scenario.team_stale))
    = [(Scenario.sock_C, line "You must join the group before sending messages.")].
Proof. split; vm_compute; reflexivity. Qed.

(** ** C2: no group without members *)

(** C2.  Starting from the empty dictionaries, after any sequence of
    method calls (nickname negotiation turns, commands, the group
    operations create, join, leave and send, listings, private messages,
    broadcasts and disconnect cleanups, with any arguments) every group
    present in [_groups] has at least one member. *)
Theorem C2_groups_never_empty (ops : list op) :
  groups_nonempty (state (run ops init)).
Proof.
  apply run_preserves; [apply groups_nonempty_perform|].
  intros g ms. cbn. by rewrite lookup_empty.
Qed.

(** ** C3: which candidates the negotiation accepts *)




(** ** C4: state conflicts *)

(** The calls that run into a conflict with the current dictionaries,
    with the connection that made the call and the line it is answered. *)
Inductive state_conflict (st : ChatServer) : op → sock → string → Prop :=
| conflict_create name group_name client_sock :
    is_Some (_groups st !! group_name) →
    state_conflict st (GroupCreate name group_name client_sock)
      client_sock "Group already exists."
| conflict_join name group_name client_sock :
    _groups st !! group_name = None →
    state_conflict st (GroupJoin name group_name client_sock)
      client_sock "Group does not exist."
| conflict_leave_missing name group_name client_sock :
    _groups st !! group_name = None →
    state_conflict st (GroupLeave name group_name client_sock)
      client_sock "You are not a member of that group."
| conflict_leave_stranger name group_name client_sock ms :
    _groups st !! group_name = Some ms →
    name ∉ ms →
    state_conflict st (GroupLeave name group_name client_sock)
      client_sock "You are not a member of that group."
| conflict_nickname client_sock data :
    is_empty data = false →
    lower (strip data) ≠ "/quit" →
    nickname_rejected (strip data) = false →
    is_Some (_clients st !! strip data) →
    state_conflict st (Negotiate client_sock data)
      client_sock "Name already in use. Try another:".

(** C4.  A call that runs into a state conflict (creating a group that
    exists, joining a group that does not, leaving a group that does not
    exist or that the caller is not in, registering a nickname that is
    taken) leaves both dictionaries exactly as they were and writes
    exactly one line, the error, to the connection that made the call. *)
Theorem C4_state_conflict st o client_sock message :
  state_conflict st o client_sock message →
  state (perform o st) = st
  ∧ sends (trace (perform o st)) = [(client_sock, line message)].
Proof.
  destruct st as [cs gs].
  intros [n g s [ms H]|n g s H|n g s H|n g s ms H Hn|s data Hd Hq Hr [session Hc]];
    cbn [perform _groups _clients] in *.
  - by erewrite group_create_exists.
  - by rewrite group_join_missing.
  - by rewrite group_leave_missing.
  - by erewrite group_leave_stranger.
  - unfold discard. rewrite bind_unfold. by erewrite turn_taken.
Qed.

(** In the scenario all four conflicts occur: A creates [team] again, A
    joins and leaves a group nobody created, D leaves [team] without
    being in it, and a newcomer asks for the name B. *)
Lemma C4_state_conflict_witness :
  let newcomer := Sock 9 ("10.0.0.9", 50009%N) in
  (state (perform (GroupCreate "A" "team" Scenario.sock_A) Scenario.team)
   = Scenario.team
   ∧ sends (trace (perform (GroupCreate "A" "team" Scenario.sock_A) Scenario.team))
     = [(Scenario.sock_A, line "Group already exists.")])
  ∧ (state (perform (GroupJoin "A" "crew" Scenario.sock_A) Scenario.team)
     = Scenario.team
     ∧ sends (trace (perform (GroupJoin "A" "crew" Scenario.sock_A) Scenario.team))
       = [(Scenario.sock_A, line "Group does not exist.")])
  ∧ (state (perform (GroupLeave "A" "crew" Scenario.sock_A) Scenario.team)
     = Scenario.team
     ∧ sends (trace (perform (GroupLeave "A" "crew" Scenario.sock_A) Scenario.team))
       = [(Scenario.sock_A, line "You are not a member of that group.")])
  ∧ (state (perform (GroupLeave "D" "team" Scenario.sock_C) Scenario.team)
     = Scenario.team
     ∧ sends (trace (perform (GroupLeave "D" "team" Scenario.sock_C) Scenario.team))
       = [(Scenario.sock_C, line "You are not a member of that group.")])
  ∧ (state (perform (Negotiate newcomer " B ") Scenario.team) = Scenario.team
     ∧ sends (trace (perform (Negotiate newcomer " B ") Scenario.team))
       = [(newcomer, line "Name already in use. Try another:")]).
Proof.
  intros newcomer.
  split; [|split; [|split; [|split]]]; apply C4_state_conflict.
  - apply conflict_create. vm_compute. eauto.
  - apply conflict_join. vm_compute. reflexivity.
  - apply conflict_leave_missing. vm_compute. reflexivity.
  - apply (conflict_leave_stranger _ _ _ _ {["A"; "B"; "C"]}).
    + vm_compute. reflexivity.
    + rewrite !elem_of_union, !elem_of_singleton. intros [[?|?]|?]; discriminate.
  - apply conflict_nickname.
    + reflexivity.
    + discriminate.
    + reflexivity.
    + vm_compute. eauto.
Defined.

(** ** C5: disconnect cleanup *)

(** The groups [name] belongs to. *)
Definition groups_of (name : string) (gs : gmap string (gset string)) : list string :=
  (map_to_list (filter (λ entry, name ∈ entry.2) gs)).*1.

(** [name] leaves each group of [groups] in turn. *)
Definition leave_each (name : string) (client_sock : sock) (groups : list string)
  : Act unit :=
  for_each groups (λ g, _group_leave name g client_sock).

(** What a call of [_group_leave] makes of a member set. *)
Definition left_by (name : string) (ms : gset string) : option (gset string) :=
  if decide (name ∈ ms) then purged name ms else Some ms.

Lemma purged_member name ms :
  name ∈ ms →
  purged name ms = if decide (ms = {[name]}) then None else Some (ms ∖ {[name]}).
Proof.
  intros Hin. unfold purged.
  destruct (decide (ms = {[name]})) as [->|Hne].
  - rewrite decide_True; [done|]. apply set_eq. intros x.
    rewrite elem_of_difference, elem_of_singleton, elem_of_empty. tauto.
  - rewrite decide_False; [done|]. intros He. apply Hne, set_eq. intros x.
    rewrite elem_of_singleton. split; [|by intros ->].
    intros Hx. destruct (decide (x = name)) as [|Hxn]; [done|].
    assert (x ∈ ms ∖ {[name]}) as Hd
      by (rewrite elem_of_difference, elem_of_singleton; tauto).
    rewrite He in Hd. by apply elem_of_empty in Hd.
Qed.

Lemma purged_stranger name ms :
  name ∉ ms → ms ≠ ∅ → purged name ms = Some ms.
Proof.
  intros Hout Hne. unfold purged.
  assert (ms ∖ {[name]} = ms) as ->.
  { apply set_eq. intros x. rewrite elem_of_difference, elem_of_singleton.
    split; [tauto|]. intros Hx. split; [done|]. by intros ->. }
  by rewrite decide_False.
Qed.

Lemma left_by_member name ms : name ∈ ms → left_by name ms = purged name ms.
Proof. intros H. unfold left_by. by rewrite decide_True. Qed.

Lemma left_by_stranger name ms : name ∉ ms → left_by name ms = Some ms.
Proof. intros H. unfold left_by. by rewrite decide_False. Qed.

Lemma elem_of_groups_of name (gs : gmap string (gset string)) g :
  g ∈ groups_of name gs ↔ ∃ ms, gs !! g = Some ms ∧ name ∈ ms.
Proof.
  unfold groups_of. rewrite list_elem_of_fmap. split.
  - intros [[g' ms] [-> [H Hin]%elem_of_map_to_list%map_lookup_filter_Some]].
    by exists ms.
  - intros (ms & H & Hin). exists (g, ms). split; [done|].
    by apply elem_of_map_to_list, map_lookup_filter_Some.
Qed.

Lemma NoDup_groups_of name (gs : gmap string (gset string)) :
  NoDup (groups_of name gs).
Proof. apply NoDup_fst_map_to_list. Qed.

Lemma group_leave_lookup name group_name client_sock st g :
  _clients (state (_group_leave name group_name client_sock st)) = _clients st
  ∧ _groups (state (_group_leave name group_name client_sock st)) !! g
    = if decide (group_name = g) then _groups st !! g ≫= left_by name
      else _groups st !! g.
Proof.
  destruct st as [cs gs]. cbn [_clients _groups].
  destruct (gs !! group_name) as [ms|] eqn:H.
  - destruct (decide (name ∈ ms)) as [Hin|Hout].
    + erewrite group_leave_member by done. triple. cbn [_clients _groups].
      split; [done|]. rewrite lookup_drop_member.
      case_decide as Hg; [subst g|done].
      rewrite H. cbn. by rewrite left_by_member.
    + erewrite group_leave_stranger by done. triple. cbn [_clients _groups].
      split; [done|]. case_decide as Hg; [subst g|done].
      rewrite H. cbn. by rewrite left_by_stranger.
  - rewrite group_leave_missing by done. triple. cbn [_clients _groups].
    split; [done|]. case_decide as Hg; [subst g|done]. by rewrite H.
Qed.

Lemma leave_each_lookup name client_sock groups st g :
  NoDup groups →
  _clients (state (leave_each name client_sock groups st)) = _clients st
  ∧ _groups (state (leave_each name client_sock groups st)) !! g
    = if decide (g ∈ groups) then _groups st !! g ≫= left_by name
      else _groups st !! g.
Proof.
  unfold leave_each. revert st.
  induction groups as [|g0 groups IH]; intros st Hnd.
  { split; [done|]. by rewrite decide_False by apply not_elem_of_nil. }
  apply NoDup_cons in Hnd as [Hg0 Hnd]. cbn [for_each]. rewrite state_bind.
  destruct (IH (state (_group_leave name g0 client_sock st)) Hnd) as [-> ->].
  destruct (group_leave_lookup name g0 client_sock st g) as [-> ->].
  split; [done|]. destruct (decide (g0 = g)) as [->|Hne].
  - rewrite (decide_False (P := g ∈ groups)) by done.
    by rewrite decide_True by apply list_elem_of_here.
  - destruct (decide (g ∈ groups)) as [Hin|Hout].
    + by rewrite decide_True by by apply list_elem_of_further.
    + rewrite decide_False; [done|]. by intros [?|?]%elem_of_cons.
Qed.


Lemma scenario_team_nonempty : groups_nonempty Scenario.team.
Proof.
  unfold Scenario.team, Scenario.connected.
  do 2 (apply run_preserves; [apply groups_nonempty_perform|]).
  intros g ms. cbn. by rewrite lookup_empty.
Qed.


(** ** C6: create, join, leave *)

Lemma elem_of_insert_sorted {A} (key : A → string) (x y : A) l :
  y ∈ insert_sorted key x l ↔ y = x ∨ y ∈ l.
Proof.
  induction l as [|z l IH]; cbn [insert_sorted].
  - rewrite list_elem_of_singleton, elem_of_nil. tauto.
  - destruct (String.leb (key x) (key z)).
    + by rewrite elem_of_cons.
    + rewrite !elem_of_cons, IH. tauto.
Qed.

Lemma elem_of_sorted_by {A} (key : A → string) (y : A) l :
  y ∈ sorted_by key l ↔ y ∈ l.
Proof.
  unfold sorted_by. induction l as [|x l IH]; [done|].
  cbn [foldr]. by rewrite elem_of_insert_sorted, elem_of_cons, IH.
Qed.

(** A group is listed exactly when it is in the dictionary. *)
Lemma elem_of_listed_groups gs g :
  g ∈ (listed_groups gs).*1 ↔ is_Some (gs !! g).
Proof.
  unfold listed_groups. rewrite list_elem_of_fmap. split.
  - intros [[g' ms] [-> H%elem_of_sorted_by%elem_of_map_to_list]]. by exists ms.
  - intros [ms H]. exists (g, ms). split; [done|].
    by apply elem_of_sorted_by, elem_of_map_to_list.
Qed.

(** C6.  If no group [G] exists, then after [A] creates [G] its member
    set is {A}; after [B] then joins, it is {A, B}; and after both have
    left, in either order, [G] is no longer in the dictionary and is not
    among the groups that [_list_groups] prints. *)
Theorem C6_create_join_leave st G A B sock_A sock_B :
  _groups st !! G = None →
  let created := state (_group_create A G sock_A st) in
  let joined := state (_group_join B G sock_B created) in
  let left_AB :=
    state (_group_leave B G sock_B (state (_group_leave A G sock_A joined))) in
  let left_BA :=
    state (_group_leave A G sock_A (state (_group_leave B G sock_B joined))) in
  _groups created !! G = Some {[A]}
  ∧ _groups joined !! G = Some {[A; B]}
  ∧ _groups left_AB !! G = None
  ∧ (G ∉ (listed_groups (_groups left_AB)).*1)
  ∧ _groups left_BA !! G = None
  ∧ (G ∉ (listed_groups (_groups left_BA)).*1).
Proof.
  intros Hfresh created joined left_AB left_BA.
  assert (_groups created !! G = Some {[A]}) as Hcreated.
  { subst created. destruct st as [cs gs]. cbn [_groups] in Hfresh.
    rewrite group_create_fresh by done. triple. apply lookup_insert_eq. }
  assert (_groups joined !! G = Some {[A; B]}) as Hjoined.
  { subst joined. destruct created as [cs gs]. cbn [_groups] in Hcreated.
    erewrite group_join_exists by done. triple. apply lookup_insert_eq. }
  assert (∀ X Y s_X s_Y, {[X; Y]} = ({[A; B]} : gset string) →
            _groups (state (_group_leave Y G s_Y
                              (state (_group_leave X G s_X joined)))) !! G = None)
    as Hleft.
  { intros X Y s_X s_Y HXY.
    destruct (group_leave_lookup Y G s_Y (state (_group_leave X G s_X joined)) G)
      as [_ ->].
    destruct (group_leave_lookup X G s_X joined G) as [_ ->].
    rewrite !decide_True, Hjoined, <- HXY by done. cbn.
    assert (X ∈ ({[X; Y]} : gset string)) as HinX
      by (rewrite elem_of_union, elem_of_singleton; by left).
    rewrite left_by_member, purged_member by done.
    case_decide as HX; [done|]. cbn.
    assert (Y ≠ X) as HYX.
    { intros ->. apply HX, set_eq. intros x.
      rewrite elem_of_union, elem_of_singleton. tauto. }
    assert (({[X; Y]} ∖ {[X]} : gset string) = {[Y]}) as ->.
    { apply set_eq. intros x.
      rewrite elem_of_difference, elem_of_union, !elem_of_singleton.
      split; [tauto|]. intros ->. tauto. }
    rewrite left_by_member, purged_member by by apply elem_of_singleton.
    by rewrite decide_True. }
  assert (_groups left_AB !! G = None) as HAB by (by apply Hleft).
  assert (_groups left_BA !! G = None) as HBA.
  { apply Hleft. apply set_eq. intros x. rewrite !elem_of_union. tauto. }
  split_and!; try done.
  - rewrite elem_of_listed_groups, HAB. by intros [? ?].
  - rewrite elem_of_listed_groups, HBA. by intros [? ?].
Qed.

(** With no group [crew] around, A creates it, B joins, and both leave. *)
Lemma C6_create_join_leave_witness :
  let created :=
    state (_group_create "A" "crew" Scenario.sock_A Scenario.connected) in
  let joined := state (_group_join "B" "crew" Scenario.sock_B created) in
  let left_AB :=
    state (_group_leave "B" "crew" Scenario.sock_B
             (state (_group_leave "A" "crew" Scenario.sock_A joined))) in
  let left_BA :=
    state (_group_leave "A" "crew" Scenario.sock_A
             (state (_group_leave "B" "crew" Scenario.sock_B joined))) in
  _groups created !! "crew" = Some {["A"]}
  ∧ _groups joined !! "crew" = Some {["A"; "B"]}
  ∧ _groups left_AB !! "crew" = None
  ∧ ("crew" ∉ (listed_groups (_groups left_AB)).*1)
  ∧ _groups left_BA !! "crew" = None
  ∧ ("crew" ∉ (listed_groups (_groups left_BA)).*1).
Proof.
  apply (C6_create_join_leave Scenario.connected "crew" "A" "B").
  vm_compute. reflexivity.
Defined.

(** ** C7: joining twice *)

(** C7.  On a group that exists, [_group_join] answers "Joined group G."
    to the caller, and answers it again when the same caller joins a
    second time; the second call changes nothing: the member set of the
    group, the other groups and the sessions are as the first call left
    them.  A call by someone who is already a member changes nothing
    either. *)
Theorem C7_join_idempotent st n G client_sock :
  is_Some (_groups st !! G) →
  let first := _group_join n G client_sock st in
  let second := _group_join n G client_sock (state first) in
  sends (trace first) = [(client_sock, line ("Joined group " +:+ G +:+ "."))]
  ∧ sends (trace second) = [(client_sock, line ("Joined group " +:+ G +:+ "."))]
  ∧ n ∈ default ∅ (_groups (state first) !! G)
  ∧ state second = state first
  ∧ (n ∈ default ∅ (_groups st !! G) → state first = st).
Proof.
  destruct st as [cs gs]. intros [ms H]. cbv zeta. cbn [_groups] in *.
  rewrite (group_join_exists _ _ _ _ _ _ H). triple.
  assert (<[G := ms ∪ {[n]}]> gs !! G = Some (ms ∪ {[n]})) as H'
    by apply lookup_insert_eq.
  rewrite (group_join_exists _ _ _ _ _ _ H'). triple. cbn [_groups].
  rewrite H', H. cbn [default]. unfold id.
  split_and!; try done.
  - rewrite elem_of_union, elem_of_singleton. by right.
  - f_equal. rewrite insert_insert_eq. f_equal.
    apply set_eq. intros x. rewrite !elem_of_union. tauto.
  - intros Hin. f_equal. apply insert_id. rewrite H. f_equal.
    apply set_eq. intros x. rewrite elem_of_union, elem_of_singleton.
    split; [tauto|]. by intros [?| ->].
Qed.

(** In the scenario B, already in [team], joins it again, twice. *)
Lemma C7_join_idempotent_witness :
  let first := _group_join "B" "team" Scenario.sock_B Scenario.team in
  let second := _group_join "B" "team" Scenario.sock_B (state first) in
  sends (trace first)
  = [(Scenario.sock_B, line ("Joined group " +:+ "team" +:+ "."))]
  ∧ sends (trace second)
    = [(Scenario.sock_B, line ("Joined group " +:+ "team" +:+ "."))]
  ∧ "B" ∈ default ∅ (_groups (state first) !! "team")
  ∧ state second = state first
  ∧ ("B" ∈ default ∅ (_groups Scenario.team !! "team") → state first = Scenario.team).
Proof.
  apply (C7_join_idempotent Scenario.team "B" "team" Scenario.sock_B).
  vm_compute. eauto.
Defined.

(** ** C8: private message to someone who is not online *)

Lemma rstrip_cons c s :
  rstrip (String c s)
  = match rstrip s with
    | "" => if char_isspace c then "" else String c ""
    | r => String c r
    end.
Proof. done. Qed.

Lemma rstrip_idem s : rstrip (rstrip s) = rstrip s.
Proof.
  induction s as [|c s IH]; [done|]. rewrite rstrip_cons.
  destruct (rstrip s) as [|d r] eqn:Hr.
  - destruct (char_isspace c) eqn:Hc; [done|]. rewrite rstrip_cons. cbn [rstrip].
    by rewrite Hc.
  - by rewrite rstrip_cons, IH.
Qed.

Lemma rstrip_head c s :
  char_isspace c = false → ∃ r, rstrip (String c s) = String c r.
Proof.
  intros Hc. cbn [rstrip]. destruct (rstrip s) as [|d r].
  - rewrite Hc. by exists "".
  - by eexists.
Qed.

Lemma lstrip_head s :
  lstrip s = "" ∨ ∃ c s', lstrip s = String c s' ∧ char_isspace c = false.
Proof.
  induction s as [|c s IH]; [by left|]. cbn [lstrip].
  destruct (char_isspace c) eqn:Hc; [done|]. right. by exists c, s.
Qed.

Lemma strip_idem s : strip (strip s) = strip s.
Proof.
  unfold strip. destruct (lstrip_head s) as [->|(c & s' & -> & Hc)]; [done|].
  destruct (rstrip_head c s' Hc) as [r Hr]. rewrite Hr at 1.
  cbn [lstrip]. rewrite Hc, <- Hr. apply rstrip_idem.
Qed.

Lemma send_private_offline sender target message client_sock st :
  _clients st !! target = None →
  _send_private sender target message client_sock st
  = (tt, st,
     [Acquire; Release; Sendall client_sock (line (target +:+ " is not online."))]).
Proof. intros H. unfold _send_private. act_simpl. by rewrite H. Qed.

Lemma process_msg_offline sender raw cmd target word words client_sock st :
  split (strip raw) = cmd :: target :: word :: words →
  lower cmd = "/msg" →
  _clients st !! target = None →
  _process_command sender raw client_sock st
  = (false, st,
     [Acquire; Release; Sendall client_sock (line (target +:+ " is not online."))]).
Proof.
  intros Htok Hcmd Hoff. unfold _process_command. rewrite Htok, Hcmd.
  cbn [String.eqb Ascii.eqb Bool.eqb length Nat.ltb Nat.leb nth].
  rewrite bind_unfold, send_private_offline by done. triple.
  by rewrite app_nil_r.
Qed.

(** C8.  When [target] has no session, [_send_private] changes neither
    dictionary and writes exactly one line, "target is not online.", on
    the sender's socket.  A "/msg target text" command that reaches it
    through [_process_command] does the same and returns [False], so the
    read loop of the sender's connection does not close the socket and
    goes on to the next chunk. *)
Theorem C8_private_offline st sender target client_sock :
  _clients st !! target = None →
  (∀ message,
     _send_private sender target message client_sock st
     = (tt, st,
        [Acquire; Release;
         Sendall client_sock (line (target +:+ " is not online."))]))
  ∧ (∀ raw cmd word words,
       split (strip raw) = cmd :: target :: word :: words →
       lower cmd = "/msg" →
       _process_command sender raw client_sock st
       = (false, st,
          [Acquire; Release;
           Sendall client_sock (line (target +:+ " is not online."))]))
  ∧ (∀ data rest cmd word words,
       split (strip data) = cmd :: target :: word :: words →
       lower cmd = "/msg" →
       startswith (strip data) "/" = true →
       serve_loop sender client_sock (data :: rest) st
       = (tt, state (serve_loop sender client_sock rest st),
          [Acquire; Release;
           Sendall client_sock (line (target +:+ " is not online."))]
          ++ trace (serve_loop sender client_sock rest st))).
Proof.
  intros Hoff. split_and!.
  - intros message. by apply send_private_offline.
  - intros raw cmd word words Htok Hcmd. by eapply process_msg_offline.
  - intros data rest cmd word words Htok Hcmd Hslash. cbn [serve_loop].
    assert (is_empty data = false) as -> by (by destruct data).
    assert (is_empty (strip data) = false) as ->
      by (by destruct (strip data)).
    rewrite Hslash, bind_unfold.
    erewrite process_msg_offline; [|by rewrite strip_idem|done|done].
    triple. by destruct (serve_loop sender client_sock rest st) as [[[] ?] ?].
Qed.

(** In the scenario nobody is called D: A's "/msg D hi" is answered
    "D is not online." and the command does not ask to close. *)
Lemma C8_private_offline_witness :
  _process_command "A" "/msg D hi" Scenario.sock_A Scenario.connected
  = (false, Scenario.connected,
     [Acquire; Release;
      Sendall Scenario.sock_A (line ("D" +:+ " is not online."))]).
Proof.
  assert (_clients Scenario.connected !! "D" = None) as Hoff
    by (vm_compute; reflexivity).
  destruct (C8_private_offline Scenario.connected "A" "D" Scenario.sock_A Hoff)
    as (_ & H & _).
  apply (H "/msg D hi" "/msg" "hi" []); reflexivity.
Defined.

(** ** C9: writes and the lock *)

(** Whether every write of a trace happens while the lock is free;
    [held] counts the acquisitions of the re-entrant lock that are not
    yet released. *)
Fixpoint writes_outside_lock (held : nat) (tr : list event) : bool :=
  match tr with
  | [] => true
  | Acquire :: tr' => writes_outside_lock (S held) tr'
  | Release :: tr' => writes_outside_lock (pred held) tr'
  | Sendall _ _ :: tr' => Nat.eqb held 0 && writes_outside_lock held tr'
  | Close _ :: tr' => writes_outside_lock held tr'
  end.

Fixpoint held_after (held : nat) (tr : list event) : nat :=
  match tr with
  | [] => held
  | Acquire :: tr' => held_after (S held) tr'
  | Release :: tr' => held_after (pred held) tr'
  | _ :: tr' => held_after held tr'
  end.

(** A trace that keeps the discipline and gives the lock back. *)
Definition disciplined (tr : list event) : Prop :=
  writes_outside_lock 0 tr = true ∧ held_after 0 tr = 0.

Lemma writes_outside_lock_app held tr1 tr2 :
  writes_outside_lock held (tr1 ++ tr2)
  = writes_outside_lock held tr1 && writes_outside_lock (held_after held tr1) tr2.
Proof.
  revert held. induction tr1 as [|[| |s data|s] tr1 IH]; intros held; cbn;
    rewrite ?IH; try done.
  by rewrite andb_assoc.
Qed.

Lemma held_after_app held tr1 tr2 :
  held_after held (tr1 ++ tr2) = held_after (held_after held tr1) tr2.
Proof.
  revert held. induction tr1 as [|[| |s data|s] tr1 IH]; intros held; cbn;
    by rewrite ?IH.
Qed.

Lemma disciplined_app tr1 tr2 :
  disciplined tr1 → disciplined tr2 → disciplined (tr1 ++ tr2).
Proof.
  intros [H1 H1'] [H2 H2']. split.
  - by rewrite writes_outside_lock_app, H1, H1', H2.
  - by rewrite held_after_app, H1', H2'.
Qed.

Lemma disciplined_for_each {A} (xs : list A) (body : A → Act unit) st :
  (∀ x st', disciplined (trace (body x st'))) →
  disciplined (trace (for_each xs body st)).
Proof.
  intros Hb. revert st. induction xs as [|x xs IH]; intros st; [done|].
  cbn [for_each]. rewrite trace_bind. by apply disciplined_app.
Qed.

(** The paths that take a copy under the lock and write after releasing
    it keep the discipline: private messages, the user listing, the
    group fan-out and the system broadcast, in every state. *)
Lemma snapshot_paths_disciplined st :
  (∀ sender target message s,
     disciplined (trace (_send_private sender target message s st)))
  ∧ (∀ s, disciplined (trace (_list_users s st)))
  ∧ (∀ sender group_name message s,
       disciplined (trace (_group_send sender group_name message s st)))
  ∧ (∀ message, disciplined (trace (_broadcast_system message st))).
Proof.
  split_and!.
  - intros sender target message s. unfold _send_private. act_simpl.
    by destruct (_clients st !! target).
  - intros s. unfold _list_users. act_simpl.
    by destruct (sorted _).
  - intros sender group_name message s. unfold _group_send.
    rewrite trace_bind.
    apply (disciplined_app [Acquire; Release]); [done|].
    change (result (with_lock _ st)) with (default ∅ (_groups st !! group_name)).
    change (state (with_lock _ st)) with st.
    case_bool_decide; [done|]. rewrite trace_bind.
    apply disciplined_app; [|done].
    apply disciplined_for_each. intros member st'.
    unfold group_deliver. case_bool_decide; [done|]. act_simpl.
    by destruct (_clients st' !! member).
  - intros message. unfold _broadcast_system. rewrite trace_bind.
    apply (disciplined_app [Acquire; Release]); [done|].
    by apply disciplined_for_each.
Qed.

(** C9 does not hold of the code.  Five error paths write to the socket
    from inside the [with self._lock] block, before the early [return]
    or [continue] releases the lock: a nickname that is taken, a listing
    of no groups, a group that exists already, a group that does not
    exist, and a leave by a non-member. *)
Theorem C9_writes_under_lock :
  let newcomer := Sock 9 ("10.0.0.9", 50009%N) in
  trace (negotiate_turn newcomer "B" Scenario.team)
  = [Acquire;
     Sendall newcomer (line "Name already in use. Try another:");
     Release]
  ∧ writes_outside_lock 0 (trace (negotiate_turn newcomer "B" Scenario.team)) = false
  ∧ writes_outside_lock 0 (trace (_list_groups Scenario.sock_A Scenario.connected))
    = false
  ∧ writes_outside_lock 0
      (trace (_group_create "B" "team" Scenario.sock_B Scenario.team)) = false
  ∧ writes_outside_lock 0
      (trace (_group_join "B" "crew" Scenario.sock_B Scenario.team)) = false
  ∧ writes_outside_lock 0
      (trace (_group_leave "B" "solo" Scenario.sock_B Scenario.team)) = false.
Proof. intros newcomer. split_and!; vm_compute; reflexivity. Qed.

(** ** C10: "/quit" and other lines that start with a slash *)

(** A negotiation that returns no name has registered nobody. *)
Lemma negotiate_loop_none client_sock stream st :
  (result (negotiate_loop client_sock stream st)).1 = None →
  state (negotiate_loop client_sock stream st) = st.
Proof.
  revert st. induction stream as [|data rest IH]; intros st; [done|].
  cbn [negotiate_loop]. rewrite result_bind, state_bind.
  destruct (turn_cases client_sock st data) as [[Hst Hno]|(_ & _ & Hname & _)].
  - rewrite Hst. destruct (result (negotiate_turn client_sock data st)) as [| |c].
    + done.
    + apply IH.
    + by destruct (Hno c).
  - by rewrite Hname.
Qed.

Lemma negotiate_name_none client_sock stream st :
  (result (_negotiate_name client_sock stream st)).1 = None →
  state (_negotiate_name client_sock stream st) = st.
Proof.
  unfold _negotiate_name. rewrite result_bind, state_bind.
  apply negotiate_loop_none.
Qed.

Lemma handle_client_none client_sock stream st :
  (result (_negotiate_name client_sock stream st)).1 = None →
  state (_handle_client client_sock stream st) = st.
Proof.
  intros Hnone. unfold _handle_client. rewrite state_bind, state_bind.
  change (state (_send_line client_sock _ st)) with st.
  rewrite (negotiate_name_none _ _ _ Hnone).
  destruct (result (_negotiate_name client_sock stream st)) as [[name|] rest];
    [done|done].
Qed.

Lemma run_names_valid ops : names_valid (state (run ops init)).
Proof.
  apply run_preserves; [apply names_valid_perform|].
  intros n. cbn. rewrite lookup_empty. by intros [? ?].
Qed.

(** C10.  During negotiation, a chunk whose stripped, lower-cased form is
    "/quit" ends the turn with the reply "Goodbye!" and no name, and the
    handler of that connection closes the socket with both dictionaries
    as they were; more generally a negotiation that returns no name has
    created no session.  Every other chunk that starts with "/" fails the
    reject test: the turn re-prompts and changes nothing.  Hence in every
    state reached by a run from the empty dictionaries, no registered
    nickname starts with "/". *)
Theorem C10_quit_and_slash client_sock st data :
  (lower (strip data) = "/quit" →
     negotiate_turn client_sock data st
     = (ReturnNone, st, [Sendall client_sock (line "Goodbye!")])
     ∧ ∀ rest,
         _handle_client client_sock (data :: rest) st
         = (tt, st,
            [Sendall client_sock (line "Welcome to the network lab chat server!");
             Sendall client_sock
               (line "Enter a nickname (letters, numbers, underscores). Use /quit to abort.");
             Sendall client_sock (line "Goodbye!");
             Close client_sock]))
  ∧ (∀ stream,
       (result (_negotiate_name client_sock stream st)).1 = None →
       state (_handle_client client_sock stream st) = st)
  ∧ (startswith data "/" = true →
     lower (strip data) ≠ "/quit" →
     negotiate_turn client_sock data st
     = (Continue, st,
        [Sendall client_sock
           (line "Nickname must be alphanumeric (underscores allowed). Try again:")]))
  ∧ (∀ ops n,
       is_Some (_clients (state (run ops init)) !! n) → startswith n "/" = false).
Proof.
  split_and!.
  - intros Hq. split; [by apply turn_quit|]. intros rest.
    unfold _handle_client, _negotiate_name. cbn [negotiate_loop].
    rewrite !bind_unfold.
    change (state (_send_line client_sock _ st)) with st.
    rewrite (turn_quit _ _ _ Hq). done.
  - intros stream. apply handle_client_none.
  - intros Hslash Hq. apply turn_rejected; [by destruct data|done|].
    by apply startswith_slash_rejected, strip_startswith_slash.
  - intros ops n Hn. apply run_names_valid in Hn.
    destruct (startswith n "/") eqn:Hs; [|done].
    apply startswith_slash_rejected in Hs. congruence.
Qed.

(** A newcomer who types " /QUIT " is sent "Goodbye!"; one who types
    "/help" is asked again; either way the scenario's dictionaries stay
    as they were. *)
Lemma C10_quit_and_slash_witness :
  let newcomer := Sock 9 ("10.0.0.9", 50009%N) in
  negotiate_turn newcomer " /QUIT " Scenario.team
  = (ReturnNone, Scenario.team, [Sendall newcomer (line "Goodbye!")])
  ∧ negotiate_turn newcomer "/help" Scenario.team
    = (Continue, Scenario.team,
       [Sendall newcomer
          (line "Nickname must be alphanumeric (underscores allowed). Try again:")]).
Proof.
  intros newcomer. split.
  - destruct (C10_quit_and_slash newcomer Scenario.team " /QUIT ") as (H & _).
    by destruct (H eq_refl) as [-> _].
  - destruct (C10_quit_and_slash newcomer Scenario.team "/help") as (_ & _ & H & _).
    apply H; [reflexivity|discriminate].
Defined.


(** * Further properties of the methods *)

(** ** The command dispatcher *)

(** X1.  [_process_command] asks for the connection to be closed exactly
    when the first token of the line, lower-cased, is "/quit"; a line
    without tokens does not. *)
Theorem process_command_closes_on_quit name raw client_sock st :
  result (_process_command name raw client_sock st)
  = match split (strip raw) with
    | tok :: _ => String.eqb (lower tok) "/quit"
    | [] => false
    end.
Proof.
  unfold _process_command. destruct (split (strip raw)) as [|tok rest]; [done|].
  destruct (String.eqb (lower tok) "/help") eqn:E1.
  { apply String.eqb_eq in E1 as ->. by rewrite result_bind. }
  destruct (String.eqb (lower tok) "/list") eqn:E2.
  { apply String.eqb_eq in E2 as ->. by rewrite result_bind. }
  destruct (String.eqb (lower tok) "/msg") eqn:E3.
  { apply String.eqb_eq in E3 as ->. by rewrite result_bind. }
  destruct (String.eqb (lower tok) "/group") eqn:E4.
  { apply String.eqb_eq in E4 as ->. by rewrite result_bind. }
  destruct (String.eqb (lower tok) "/quit") eqn:E5; by rewrite result_bind.
Qed.

Lemma clients_kept_create cs n g s :
  preserves (λ st, _clients st = cs) (_group_create n g s).
Proof.
  intros st <-. by destruct (group_create_cases n g s st) as [->|[_ ->]].
Qed.

Lemma clients_kept_join cs n g s :
  preserves (λ st, _clients st = cs) (_group_join n g s).
Proof.
  intros st <-. by destruct (group_join_cases n g s st) as [->|(? & _ & ->)].
Qed.

Lemma clients_kept_leave cs n g s :
  preserves (λ st, _clients st = cs) (_group_leave n g s).
Proof.
  intros st <-. by destruct (group_leave_cases n g s st) as [->|(? & _ & _ & ->)].
Qed.

Lemma process_command_clients name raw client_sock st :
  _clients (state (_process_command name raw client_sock st)) = _clients st.
Proof.
  apply (process_command_preserves (λ st', _clients st' = _clients st));
    auto using clients_kept_create, clients_kept_join, clients_kept_leave.
Qed.

Lemma serve_loop_clients name client_sock stream st :
  _clients (state (serve_loop name client_sock stream st)) = _clients st.
Proof.
  revert st. induction stream as [|data rest IH]; intros st; [done|].
  cbn [serve_loop]. destruct (is_empty data); [done|].
  destruct (is_empty (strip data)); [apply IH|].
  destruct (startswith (strip data) "/").
  - rewrite state_bind.
    destruct (result (_process_command name (strip data) client_sock st));
      [apply process_command_clients|].
    rewrite IH. apply process_command_clients.
  - rewrite state_bind. apply IH.
Qed.

(** X2.  No command changes the session dictionary: whatever the lines read
    on a connection, the sessions after [_process_command], and after the
    whole read loop, are the sessions before it. *)
Theorem commands_keep_sessions name client_sock st :
  (∀ raw, _clients (state (_process_command name raw client_sock st)) = _clients st)
  ∧ (∀ stream, _clients (state (serve_loop name client_sock stream st)) = _clients st).
Proof.
  split; intros ?; [apply process_command_clients|apply serve_loop_clients].
Qed.

(** The lines that are not well-formed commands, with the answer each
    one gets. *)
Inductive protocol_error : list string → string → Prop :=
| list_without_target cmd :
    lower cmd = "/list" →
    protocol_error [cmd] "Usage: /list users|groups"
| list_unknown_target cmd target rest :
    lower cmd = "/list" →
    lower target ≠ "users" →
    lower target ≠ "groups" →
    protocol_error (cmd :: target :: rest)
      "Unknown list target. Use users or groups."
| msg_too_short cmd args :
    lower cmd = "/msg" →
    length args < 2 →
    protocol_error (cmd :: args) "Usage: /msg <nickname> <message>"
| group_too_short cmd args :
    lower cmd = "/group" →
    length args < 2 →
    protocol_error (cmd :: args)
      "Usage: /group create|join|leave|send <group_name> [message]"
| group_send_without_message cmd action group_name :
    lower cmd = "/group" →
    lower action = "send" →
    protocol_error [cmd; action; group_name]
      "Usage: /group send <group_name> <message>"
| group_unknown_action cmd action group_name rest :
    lower cmd = "/group" →
    lower action ≠ "create" →
    lower action ≠ "join" →
    lower action ≠ "leave" →
    lower action ≠ "send" →
    protocol_error (cmd :: action :: group_name :: rest)
      "Unknown group action (create|join|leave|send)."
| unknown_command cmd rest :
    lower cmd ≠ "/help" →
    lower cmd ≠ "/list" →
    lower cmd ≠ "/msg" →
    lower cmd ≠ "/group" →
    lower cmd ≠ "/quit" →
    protocol_error (cmd :: rest)
      "Unknown command. Use /help to see all options.".

(** X3.  A malformed command (too few arguments, an unknown list target or
    group action, an unknown command) is answered with one line on the
    sender's socket; the dispatcher does not take the lock, changes
    neither dictionary and does not ask to close the connection. *)
Theorem process_command_protocol_error name raw client_sock st message :
  protocol_error (split (strip raw)) message →
  _process_command name raw client_sock st
  = (false, st, [Sendall client_sock (line message)]).
Proof.
  unfold _process_command.
  intros [cmd Hc|cmd target rest Hc Hu Hg|cmd args Hc Hl|cmd args Hc Hl
         |cmd action g Hc Ha|cmd action g rest Hc H1 H2 H3 H4
         |cmd rest H1 H2 H3 H4 H5].
  - by rewrite Hc.
  - rewrite Hc. cbn [String.eqb Ascii.eqb Bool.eqb length Nat.ltb Nat.leb nth].
    apply String.eqb_neq in Hu, Hg. by rewrite Hu, Hg.
  - rewrite Hc. cbn [String.eqb Ascii.eqb Bool.eqb].
    destruct args as [|a1 [|a2 args]]; [done|done|cbn in Hl; lia].
  - rewrite Hc. cbn [String.eqb Ascii.eqb Bool.eqb].
    destruct args as [|a1 [|a2 args]]; [done|done|cbn in Hl; lia].
  - rewrite Hc. cbn [String.eqb Ascii.eqb Bool.eqb length Nat.ltb Nat.leb nth].
    by rewrite Ha.
  - rewrite Hc. cbn [String.eqb Ascii.eqb Bool.eqb length Nat.ltb Nat.leb nth].
    apply String.eqb_neq in H1, H2, H3, H4. by rewrite H1, H2, H3, H4.
  - apply String.eqb_neq in H1, H2, H3, H4, H5. by rewrite H1, H2, H3, H4, H5.
Qed.

(** "/msg bob" lacks a message, and "/Group rename a b" names an action
    that does not exist. *)
Lemma process_command_protocol_error_witness :
  _process_command "A" "/msg bob" Scenario.sock_A Scenario.team
  = (false, Scenario.team,
     [Sendall Scenario.sock_A (line "Usage: /msg <nickname> <message>")])
  ∧ _process_command "A" "/Group rename a b" Scenario.sock_A Scenario.team
    = (false, Scenario.team,
       [Sendall Scenario.sock_A
          (line "Unknown group action (create|join|leave|send).")]).
Proof.
  split; apply process_command_protocol_error.
  - apply (msg_too_short "/msg" ["bob"]); [reflexivity|cbn; lia].
  - by apply (group_unknown_action "/Group" "rename" "a" ["b"]).
Defined.

(** ** Tokens *)

Definition no_space (c : ascii) : bool := negb (char_isspace c).

(** A token: at least one character, none of them whitespace. *)
Definition is_token (tok : string) : Prop :=
  tok ≠ "" ∧ all_chars no_space tok = true.

Lemma append_cons c (s1 s2 : string) : String c s1 +:+ s2 = String c (s1 +:+ s2).
Proof. done. Qed.

Lemma append_nil_r (s : string) : s +:+ "" = s.
Proof. induction s as [|c s IH]; [done|]. by rewrite append_cons, IH. Qed.

Lemma append_assoc (s1 s2 s3 : string) : (s1 +:+ s2) +:+ s3 = s1 +:+ (s2 +:+ s3).
Proof. induction s1 as [|c s1 IH]; [done|]. by rewrite !append_cons, IH. Qed.

Lemma all_chars_append p s1 s2 :
  all_chars p (s1 +:+ s2) = all_chars p s1 && all_chars p s2.
Proof.
  induction s1 as [|c s1 IH]; [done|].
  rewrite append_cons. cbn [all_chars]. by rewrite IH, andb_assoc.
Qed.

Lemma split_from_tokens tok s :
  all_chars no_space tok = true → Forall is_token (split_from tok s).
Proof.
  revert tok. induction s as [|c s IH]; intros tok Htok; cbn [split_from].
  - destruct tok; [constructor|]. by repeat constructor.
  - destruct (char_isspace c) eqn:Hc.
    + destruct tok; cbn [is_empty]; [by apply IH|].
      constructor; [done|by apply IH].
    + apply IH. rewrite all_chars_append, Htok. cbn. unfold no_space. by rewrite Hc.
Qed.

(** Every token of [s.split()] is non-empty and free of whitespace. *)
Lemma split_tokens s : Forall is_token (split s).
Proof. by apply split_from_tokens. Qed.

Lemma split_from_head tok s :
  tok ≠ "" → ∃ t rest, split_from tok s = (tok +:+ t) :: rest.
Proof.
  revert tok. induction s as [|c s IH]; intros tok Htok; cbn [split_from].
  - destruct tok; [done|]. exists "", []. by rewrite append_nil_r.
  - destruct (char_isspace c).
    + destruct tok; [done|]. eexists "", _. by rewrite append_nil_r.
    + destruct (IH (tok +:+ String c "")) as (t & rest & ->).
      { by destruct tok. }
      exists (String c t), rest. by rewrite append_assoc.
Qed.

(** The first token of a line that starts with a character other than
    whitespace starts with that character. *)
Lemma split_head c s :
  char_isspace c = false → ∃ t rest, split (String c s) = String c t :: rest.
Proof.
  intros Hc. unfold split. cbn [split_from]. rewrite Hc.
  by apply (split_from_head (String c "")).
Qed.

Lemma strip_head s :
  strip s = "" ∨ ∃ c s', strip s = String c s' ∧ char_isspace c = false.
Proof.
  unfold strip. destruct (lstrip_head s) as [->|(c & s' & -> & Hc)]; [by left|].
  right. destruct (rstrip_head c s' Hc) as [r ->]. by exists c, r.
Qed.

Lemma char_lower_slash c : char_lower c = "/"%char → c = "/"%char.
Proof.
  destruct c as [[] [] [] [] [] [] [] []]; vm_compute; congruence.
Qed.

(** A line whose first token is some spelling of "/quit" starts with a
    slash once stripped. *)
Lemma quit_line_starts_with_slash data tok args :
  split (strip data) = tok :: args →
  lower tok = "/quit" →
  is_empty data = false ∧ startswith (strip data) "/" = true.
Proof.
  intros Htok Hq. split; [by destruct data|].
  destruct (strip_head data) as [He|(c & s' & He & Hc)].
  { by rewrite He in Htok. }
  rewrite He in *. destruct (split_head c s' Hc) as (t & rest & Hs).
  rewrite Hs in Htok. injection Htok as <- _.
  cbn in Hq. injection Hq as Hq _. apply char_lower_slash in Hq as ->. done.
Qed.

(** ** The read loop *)

(** X4.  A chunk that is not a command never reaches the dispatcher:
    whitespace alone is skipped without an answer, any other text is
    answered with the "Unknown input" notice on the sender's socket; the
    dictionaries are untouched and the loop goes on with the next chunk. *)
Theorem serve_loop_non_command name client_sock data rest st :
  is_empty data = false →
  startswith (strip data) "/" = false →
  serve_loop name client_sock (data :: rest) st
  = (tt, state (serve_loop name client_sock rest st),
     (if is_empty (strip data) then []
      else [Sendall client_sock
              (line "Unknown input. Use /help to see the list of supported commands.")])
     ++ trace (serve_loop name client_sock rest st)).
Proof.
  intros Hd Hs. cbn [serve_loop]. rewrite Hd, Hs.
  destruct (is_empty (strip data)).
  - by destruct (serve_loop name client_sock rest st) as [[[] ?] ?].
  - rewrite bind_unfold.
    change (state (_send_line client_sock _ st)) with st.
    by destruct (serve_loop name client_sock rest st) as [[[] ?] ?].
Qed.

(** In the scenario a blank line and a line of plain text, followed by
    the end of the stream. *)
Lemma serve_loop_non_command_witness :
  serve_loop "A" Scenario.sock_A ["   "] Scenario.team
  = (tt, Scenario.team, [])
  ∧ serve_loop "A" Scenario.sock_A ["hello there"] Scenario.team
    = (tt, Scenario.team,
       [Sendall Scenario.sock_A
          (line "Unknown input. Use /help to see the list of supported commands.")]).
Proof.
  split.
  - by rewrite (serve_loop_non_command "A" Scenario.sock_A "   " [] Scenario.team).
  - by rewrite (serve_loop_non_command "A" Scenario.sock_A "hello there" []
                  Scenario.team).
Defined.

(** X5.  A line whose first token is "/quit" in any letter case, whatever
    follows it on the line, is answered "Disconnecting. Bye!" and ends
    the read loop: the chunks after it are never read, and the
    dictionaries are as they were. *)
Theorem serve_loop_quit name client_sock data rest tok args st :
  split (strip data) = tok :: args →
  lower tok = "/quit" →
  serve_loop name client_sock (data :: rest) st
  = (tt, st, [Sendall client_sock (line "Disconnecting. Bye!")]).
Proof.
  intros Htok Hq.
  destruct (quit_line_starts_with_slash data tok args Htok Hq) as [Hd Hs].
  cbn [serve_loop]. rewrite Hd, Hs.
  assert (is_empty (strip data) = false) as -> by (by destruct (strip data)).
  rewrite bind_unfold. unfold _process_command.
  rewrite strip_idem, Htok, Hq. done.
Qed.

(** " /Quit now " ends the loop of A before "/group create x" is read. *)
Lemma serve_loop_quit_witness :
  serve_loop "A" Scenario.sock_A [" /Quit now "; "/group create x"] Scenario.team
  = (tt, Scenario.team, [Sendall Scenario.sock_A (line "Disconnecting. Bye!")]).
Proof. by apply (serve_loop_quit _ _ _ _ "/Quit" ["now"]). Defined.

(** ** Negotiation and the life of a connection *)

(** What a whole negotiation makes of the state. *)
Lemma negotiate_loop_cases client_sock stream st :
  match (result (negotiate_loop client_sock stream st)).1 with
  | None => state (negotiate_loop client_sock stream st) = st
  | Some c =>
      _clients st !! c = None
      ∧ nickname_rejected c = false
      ∧ state (negotiate_loop client_sock stream st)
        = mkChatServer
            (<[c := mkClientSession client_sock (peername client_sock)]>
               (_clients st))
            (_groups st)
  end.
Proof.
  revert st. induction stream as [|data rest IH]; intros st; [done|].
  cbn [negotiate_loop]. rewrite result_bind, state_bind.
  destruct (turn_cases client_sock st data)
    as [[Hst Hno]|(Hok & Hfree & Hname & Hst)].
  - rewrite Hst. destruct (result (negotiate_turn client_sock data st)) as [| |c].
    + done.
    + apply IH.
    + by destruct (Hno c).
  - by rewrite Hname, Hst.
Qed.

Lemma negotiate_name_cases client_sock stream st :
  match (result (_negotiate_name client_sock stream st)).1 with
  | None => state (_negotiate_name client_sock stream st) = st
  | Some c =>
      _clients st !! c = None
      ∧ nickname_rejected c = false
      ∧ state (_negotiate_name client_sock stream st)
        = mkChatServer
            (<[c := mkClientSession client_sock (peername client_sock)]>
               (_clients st))
            (_groups st)
  end.
Proof.
  unfold _negotiate_name. rewrite result_bind, state_bind.
  apply negotiate_loop_cases.
Qed.

(** X6.  [_negotiate_name] registers at most one nickname, and only a free
    one: it returns either no name, with both dictionaries as they were,
    or a name that had no session and passes the reject test, now bound
    to the caller's socket and peer address.  Either way the groups and
    every session that existed before are as they were, so no nickname is
    ever taken over. *)
Theorem negotiation_registers_free_name client_sock stream st :
  let out := _negotiate_name client_sock stream st in
  _groups (state out) = _groups st
  ∧ (∀ n session,
       _clients st !! n = Some session → _clients (state out) !! n = Some session)
  ∧ match (result out).1 with
    | None => state out = st
    | Some c =>
        _clients st !! c = None
        ∧ nickname_rejected c = false
        ∧ _clients (state out)
          = <[c := mkClientSession client_sock (peername client_sock)]> (_clients st)
    end.
Proof.
  intros out. subst out.
  pose proof (negotiate_name_cases client_sock stream st) as H.
  destruct ((result (_negotiate_name client_sock stream st)).1) as [c|].
  - destruct H as (Hfree & Hok & ->). cbn [_clients _groups].
    split_and!; try done.
    intros n session Hn. rewrite lookup_insert_ne; [done|]. by intros ->; congruence.
  - by rewrite H.
Qed.

(** The state in which a connection that registered [c] ends. *)
Lemma handle_client_registered client_sock stream st c rest :
  result (_negotiate_name client_sock stream st) = (Some c, rest) →
  ∃ gs, state (_handle_client client_sock stream st)
        = mkChatServer (_clients st) (omap (purged c) gs).
Proof.
  intros Hres. pose proof (negotiate_name_cases client_sock stream st) as H.
  rewrite Hres in H. cbn [fst] in H. destruct H as (Hfree & _ & Hst).
  unfold _handle_client. rewrite state_bind, state_bind.
  change (state (_send_line client_sock _ st)) with st.
  rewrite Hres, Hst. rewrite !state_bind.
  rewrite !readonly_broadcast_system, readonly_send_help.
  change (state (emit (Close client_sock) ?x)) with x.
  set (st1 := mkChatServer _ _).
  pose proof (serve_loop_clients c client_sock rest st1) as Hcs.
  destruct (state (serve_loop c client_sock rest st1)) as [cs2 gs2].
  cbn [_clients] in Hcs. subst cs2 st1. cbn [_clients].
  erewrite remove_client_present by apply lookup_insert_eq. triple.
  exists gs2. by rewrite delete_insert_eq, delete_id.
Qed.

(** X7.  A connection leaves the session dictionary as it found it: whatever
    the peer sends, once [_handle_client] is through (negotiation
    aborted, "/quit", or the stream closed) the sessions are exactly those
    from before the connection, so the nickname is free again. *)
Theorem handle_client_restores_sessions client_sock stream st :
  _clients (state (_handle_client client_sock stream st)) = _clients st.
Proof.
  destruct (result (_negotiate_name client_sock stream st)) as [[c|] rest] eqn:Hres.
  - by destruct (handle_client_registered _ _ _ _ _ Hres) as [gs ->].
  - rewrite handle_client_none; [done|]. by rewrite Hres.
Qed.

(** X8.  When a connection that registered the nickname [c] ends, [c] is a
    member of no group and no group is left without members. *)
Theorem handle_client_leaves_groups client_sock stream st c rest :
  result (_negotiate_name client_sock stream st) = (Some c, rest) →
  ∀ g ms,
    _groups (state (_handle_client client_sock stream st)) !! g = Some ms →
    (c ∉ ms) ∧ ms ≠ ∅.
Proof.
  intros Hres g ms.
  destruct (handle_client_registered _ _ _ _ _ Hres) as [gs ->].
  cbn [_groups]. rewrite lookup_omap. destruct (gs !! g) as [ms0|]; [|done].
  cbn. unfold purged. case_decide as He; [done|]. intros [= <-].
  split; [|done]. rewrite elem_of_difference, elem_of_singleton. tauto.
Qed.

(** A newcomer registers as "dave", creates a group, joins [team] and
    goes away: [team] is back to A, B and C, without "dave". *)
Lemma handle_client_leaves_groups_witness :
  let newcomer := Sock 9 ("10.0.0.9", 50009%N) in
  let stream := ["dave"; "/group create den"; "/group join team"] in
  _groups (state (_handle_client newcomer stream Scenario.team)) !! "team"
  = Some {["A"; "B"; "C"]}
  ∧ ("dave" ∉ ({["A"; "B"; "C"]} : gset string))
  ∧ ({["A"; "B"; "C"]} : gset string) ≠ ∅.
Proof.
  intros newcomer stream.
  assert (_groups (state (_handle_client newcomer stream Scenario.team)) !! "team"
          = Some {["A"; "B"; "C"]}) as Hteam by (vm_compute; reflexivity).
  split; [exact Hteam|].
  assert (result (_negotiate_name newcomer stream Scenario.team)
          = (Some "dave", ["/group create den"; "/group join team"])) as Hres
    by (vm_compute; reflexivity).
  exact (handle_client_leaves_groups newcomer stream Scenario.team "dave" _ Hres
           "team" _ Hteam).
Defined.

(** ** Group operations: round trips and frames *)

(** X9.  Cleaning up twice is cleaning up once: a second [_remove_client] of
    the same name finds no session and touches nothing, not even groups
    that would still list the name. *)
Theorem remove_client_idempotent name st :
  state (_remove_client name (state (_remove_client name st)))
  = state (_remove_client name st).
Proof.
  destruct st as [cs gs]. destruct (cs !! name) as [session|] eqn:H.
  - rewrite (remove_client_present _ _ _ _ H). triple.
    by rewrite remove_client_absent by apply lookup_delete_eq.
  - rewrite !(remove_client_absent _ _ _ H). triple.
    by rewrite (remove_client_absent _ _ _ H).
Qed.

(** X10.  Entering a group and leaving it again restores the dictionaries: if
    [n] is not in the group [g] (which has members if it exists), then
    creating [g] when it is missing, or joining it when it exists, and
    leaving it afterwards gives back the state from before. *)
Theorem enter_then_leave st n g sock_in sock_out :
  n ∉ default ∅ (_groups st !! g) →
  _groups st !! g ≠ Some ∅ →
  let entered :=
    match _groups st !! g with
    | None => _group_create n g sock_in st
    | Some _ => _group_join n g sock_in st
    end in
  state (_group_leave n g sock_out (state entered)) = st.
Proof.
  destruct st as [cs gs]. cbn [_groups]. intros Hout Hne. cbv zeta.
  destruct (gs !! g) as [ms|] eqn:H; cbn [default] in Hout.
  - rewrite (group_join_exists _ _ _ _ _ _ H). triple.
    erewrite group_leave_member;
      [|apply lookup_insert_eq|rewrite elem_of_union, elem_of_singleton; by right].
    triple. f_equal. apply map_eq. intros g'.
    rewrite lookup_drop_member. case_decide as Hg.
    + subst g'. rewrite H.
      assert ((ms ∪ {[n]}) ∖ {[n]} = ms) as ->.
      { apply set_eq. intros x.
        rewrite elem_of_difference, elem_of_union, elem_of_singleton.
        split; [tauto|]. intros Hx. split; [tauto|]. by intros ->. }
      apply decide_False. congruence.
    + by rewrite lookup_insert_ne.
  - rewrite (group_create_fresh _ _ _ _ _ H). triple.
    erewrite group_leave_member;
      [|apply lookup_insert_eq|by apply elem_of_singleton].
    triple. f_equal. apply map_eq. intros g'.
    rewrite lookup_drop_member. case_decide as Hg.
    + subst g'. rewrite H. apply decide_True. apply set_eq. intros x.
      rewrite elem_of_difference, elem_of_singleton, elem_of_empty. tauto.
    + by rewrite lookup_insert_ne.
Qed.

(** In the scenario D joins [team] and leaves it, and creates [den] and
    leaves it. *)
Lemma enter_then_leave_witness :
  state (_group_leave "D" "team" Scenario.sock_C
           (state (_group_join "D" "team" Scenario.sock_C Scenario.team)))
  = Scenario.team
  ∧ state (_group_leave "D" "den" Scenario.sock_C
             (state (_group_create "D" "den" Scenario.sock_C Scenario.team)))
    = Scenario.team.
Proof.
  assert (_groups Scenario.team !! "team" = Some {["A"; "B"; "C"]}) as Hteam
    by (vm_compute; reflexivity).
  assert (_groups Scenario.team !! "den" = None) as Hden
    by (vm_compute; reflexivity).
  split.
  - pose proof (enter_then_leave Scenario.team "D" "team"
                  Scenario.sock_C Scenario.sock_C) as H.
    rewrite Hteam in H. apply H; [|by apply scenario_team_nonempty in Hteam; congruence].
    cbn. rewrite !elem_of_union, !elem_of_singleton. intros [[?|?]|?]; discriminate.
  - pose proof (enter_then_leave Scenario.team "D" "den"
                  Scenario.sock_C Scenario.sock_C) as H.
    rewrite Hden in H. apply H; [cbn; apply not_elem_of_empty|discriminate].
Defined.

(** X11.  A group operation on [g] concerns [g] alone: creating, joining or
    leaving [g], successfully or not, leaves the member set of every
    other group and every session as it was. *)
Theorem group_operations_frame st n g client_sock g' :
  g' ≠ g →
  (_groups (state (_group_create n g client_sock st)) !! g' = _groups st !! g'
   ∧ _clients (state (_group_create n g client_sock st)) = _clients st)
  ∧ (_groups (state (_group_join n g client_sock st)) !! g' = _groups st !! g'
     ∧ _clients (state (_group_join n g client_sock st)) = _clients st)
  ∧ (_groups (state (_group_leave n g client_sock st)) !! g' = _groups st !! g'
     ∧ _clients (state (_group_leave n g client_sock st)) = _clients st).
Proof.
  intros Hne. split; [|split].
  - destruct (group_create_cases n g client_sock st) as [->|[_ ->]]; [done|].
    cbn. by rewrite lookup_insert_ne.
  - destruct (group_join_cases n g client_sock st) as [->|(ms & _ & ->)]; [done|].
    cbn. by rewrite lookup_insert_ne.
  - destruct (group_leave_lookup n g client_sock st g') as [-> ->].
    by rewrite decide_False.
Qed.

(** Whatever B does to [solo] in the scenario, [team] keeps its members. *)
Lemma group_operations_frame_witness :
  _groups (state (_group_join "B" "solo" Scenario.sock_B Scenario.team)) !! "team"
  = _groups Scenario.team !! "team"
  ∧ _groups (state (_group_leave "A" "solo" Scenario.sock_A Scenario.team)) !! "team"
    = _groups Scenario.team !! "team".
Proof.
  split.
  - by destruct (group_operations_frame Scenario.team "B" "solo" Scenario.sock_B
                   "team" ltac:(discriminate)) as (_ & [-> _] & _).
  - by destruct (group_operations_frame Scenario.team "A" "solo" Scenario.sock_A
                   "team" ltac:(discriminate)) as (_ & _ & [-> _]).
Defined.

(** ** Broadcasts and private messages *)

Lemma sends_map_sendall {A} (dest : A → sock) data (xs : list A) :
  sends (map (λ x, Sendall (dest x) data) xs) = map (λ x, (dest x, data)) xs.
Proof. induction xs as [|x xs IH]; [done|]. cbn. by rewrite <- IH. Qed.

(** X12.  A system broadcast writes the line "[System] message" once to the
    socket of every session, and nothing else: as many lines as there are
    sessions, one for each of them.  It changes neither dictionary. *)
Theorem broadcast_reaches_every_session message st :
  let out := _broadcast_system message st in
  let notice := line ("[System] " +:+ message) in
  state out = st
  ∧ sends (trace out)
    = map (λ session, (socket session, notice)) (map_to_list (_clients st)).*2
  ∧ length (sends (trace out)) = size (_clients st)
  ∧ (∀ n session,
       _clients st !! n = Some session → (socket session, notice) ∈ sends (trace out)).
Proof.
  intros out notice.
  assert (sends (trace out)
          = map (λ session, (socket session, notice)) (map_to_list (_clients st)).*2)
    as Hsends.
  { subst out. unfold _broadcast_system. rewrite trace_bind.
    change (result (with_lock _ st)) with ((map_to_list (_clients st)).*2).
    change (state (with_lock _ st)) with st.
    rewrite for_each_send_line. triple. rewrite sends_app.
    by rewrite sends_map_sendall. }
  split_and!.
  - apply readonly_broadcast_system.
  - done.
  - by rewrite Hsends, length_map, length_fmap, length_map_to_list.
  - intros n session Hn. rewrite Hsends.
    apply list_elem_of_fmap. exists session. split; [done|].
    apply list_elem_of_fmap. exists (n, session). split; [done|].
    by apply elem_of_map_to_list.
Qed.

(** X13.  A "/msg" command to a nickname that has a session writes the message
    to that session's socket and a confirmation to the sender, in this
    order and nothing else; the text is the rest of the line with its
    words joined by single spaces.  The dictionaries are untouched, and
    a sender may write to itself. *)
Theorem private_message_delivery st sender raw cmd target word words r client_sock :
  split (strip raw) = cmd :: target :: word :: words →
  lower cmd = "/msg" →
  _clients st !! target = Some r →
  _process_command sender raw client_sock st
  = (false, st,
     [Acquire; Release;
      Sendall (socket r)
        (line ("[PM] " +:+ sender +:+ ": " +:+ join " " (word :: words)));
      Sendall client_sock
        (line ("[PM -> " +:+ target +:+ "] " +:+ join " " (word :: words)))]).
Proof.
  intros Htok Hcmd Hon. unfold _process_command. rewrite Htok, Hcmd.
  cbn [String.eqb Ascii.eqb Bool.eqb length Nat.ltb Nat.leb nth drop].
  rewrite bind_unfold. unfold _send_private. act_simpl. by rewrite Hon.
Qed.

(** In the scenario A writes to B with uneven spacing, and to itself. *)
Lemma private_message_delivery_witness :
  _process_command "A" "/MSG  B   see  you   soon " Scenario.sock_A Scenario.team
  = (false, Scenario.team,
     [Acquire; Release;
      Sendall Scenario.sock_B
        (line ("[PM] " +:+ "A" +:+ ": " +:+ join " " ["see"; "you"; "soon"]));
      Sendall Scenario.sock_A
        (line ("[PM -> " +:+ "B" +:+ "] " +:+ join " " ["see"; "you"; "soon"]))])
  ∧ sends (trace (_process_command "A" "/msg A note" Scenario.sock_A Scenario.team))
    = [(Scenario.sock_A, line "[PM] A: note");
       (Scenario.sock_A, line "[PM -> A] note")].
Proof.
  split.
  - apply (private_message_delivery Scenario.team "A" _ "/MSG" "B" "see"
             ["you"; "soon"]
             (mkClientSession Scenario.sock_B (peername Scenario.sock_B)));
      vm_compute; reflexivity.
  - rewrite (private_message_delivery Scenario.team "A" _ "/msg" "A" "note" []
               (mkClientSession Scenario.sock_A (peername Scenario.sock_A)));
      vm_compute; reflexivity.
Defined.

(** ** Letter case *)

(** The tokens of a line with the words the dispatcher lower-cases in
    lower case: the command word, and the word that follows "/list" or
    "/group". *)
Definition normalise (tokens : list string) : list string :=
  match tokens with
  | [] => []
  | cmd :: rest =>
      lower cmd
      :: (if String.eqb (lower cmd) "/list" || String.eqb (lower cmd) "/group"
          then match rest with
               | [] => []
               | word :: rest' => lower word :: rest'
               end
          else rest)
  end.

(** X14.  The dispatcher reads a line only through its tokens, and reads the
    command word and the sub-command of "/list" and "/group" without
    regard to letter case: two lines with the same normalised tokens have
    the same effect in every state.  (Nicknames, group names and message
    text are not normalised: they are case-sensitive.) *)
Theorem dispatch_ignores_command_case name raw raw' client_sock st :
  normalise (split (strip raw)) = normalise (split (strip raw')) →
  _process_command name raw client_sock st
  = _process_command name raw' client_sock st.
Proof.
  unfold _process_command.
  generalize (split (strip raw)) (split (strip raw')).
  intros [|cmd rest] [|cmd' rest']; try done.
  cbn [normalise]. intros [= Hcmd Hrest]. rewrite <- Hcmd in *. clear Hcmd.
  destruct (String.eqb (lower cmd) "/help") eqn:E1; [done|].
  destruct (String.eqb (lower cmd) "/list") eqn:E2.
  { cbn [orb] in Hrest.
    destruct rest as [|w r], rest' as [|w' r']; try done.
    injection Hrest as Hw <-.
    cbn [length Nat.ltb Nat.leb nth]. by rewrite Hw. }
  destruct (String.eqb (lower cmd) "/msg") eqn:E3.
  { apply String.eqb_eq in E3. rewrite E3 in Hrest. cbn in Hrest. by subst. }
  destruct (String.eqb (lower cmd) "/group") eqn:E4.
  { cbn [orb] in Hrest.
    destruct rest as [|w r], rest' as [|w' r']; try done.
    injection Hrest as Hw <-.
    destruct r as [|g r]; [done|].
    cbn [length Nat.ltb Nat.leb nth drop]. by rewrite Hw. }
  done.
Qed.

(** "/GROUP Create Team" does what "/group create Team" does (and makes
    a group called "Team", not "team"). *)
Lemma dispatch_ignores_command_case_witness :
  _process_command "A" "/GROUP Create Team" Scenario.sock_A Scenario.team
  = _process_command "A" "/group create Team" Scenario.sock_A Scenario.team.
Proof. by apply dispatch_ignores_command_case. Defined.

(** ** Listings *)

(** Ascending order of the keys. *)
Definition key_le {A} (key : A → string) : relation A :=
  λ x y, String.le (key x) (key y).

Lemma insert_sorted_perm {A} (key : A → string) x l :
  insert_sorted key x l ≡ₚ x :: l.
Proof.
  induction l as [|y l IH]; [done|]. cbn [insert_sorted].
  destruct (String.leb (key x) (key y)); [done|].
  rewrite IH. apply Permutation_swap.
Qed.

Lemma sorted_by_perm {A} (key : A → string) l : sorted_by key l ≡ₚ l.
Proof.
  unfold sorted_by. induction l as [|x l IH]; [done|].
  cbn [foldr]. by rewrite insert_sorted_perm, IH.
Qed.

Lemma insert_sorted_sorted {A} (key : A → string) x l :
  Sorted (key_le key) l → Sorted (key_le key) (insert_sorted key x l).
Proof.
  induction l as [|y l IH]; intros Hl; cbn [insert_sorted].
  { by repeat constructor. }
  destruct (String.leb (key x) (key y)) eqn:Hxy.
  - constructor; [done|]. constructor. unfold key_le, String.le. by rewrite Hxy.
  - apply Sorted_inv in Hl as [Hl Hhd]. constructor; [by apply IH|].
    assert (key_le key y x) as Hyx.
    { unfold key_le, String.le.
      destruct (String.leb_total (key x) (key y)) as [H|H]; [congruence|].
      by rewrite H. }
    destruct l as [|z l]; cbn [insert_sorted]; [by constructor|].
    destruct (String.leb (key x) (key z)); constructor; [done|].
    by apply HdRel_inv in Hhd.
Qed.

Lemma sorted_by_sorted {A} (key : A → string) l :
  Sorted (key_le key) (sorted_by key l).
Proof.
  unfold sorted_by. induction l as [|x l IH]; [constructor|].
  cbn [foldr]. by apply insert_sorted_sorted.
Qed.

Lemma sorted_sorted l : Sorted String.le (sorted l).
Proof. apply (sorted_by_sorted id). Qed.

Lemma sorted_perm l : sorted l ≡ₚ l.
Proof. apply sorted_by_perm. Qed.

(** X15.  "/list users" answers with one line on the caller's socket and
    changes nothing.  With no session the line is "No connected users.";
    otherwise it gives the number of sessions and their nicknames, each
    exactly once, in ascending order, separated by ", ". *)
Theorem list_users_sorted client_sock st :
  let names := sorted (map_to_list (_clients st)).*1 in
  state (_list_users client_sock st) = st
  ∧ NoDup names
  ∧ (∀ n, n ∈ names ↔ is_Some (_clients st !! n))
  ∧ Sorted String.le names
  ∧ length names = size (_clients st)
  ∧ sends (trace (_list_users client_sock st))
    = [(client_sock,
        line (if decide (_clients st = ∅) then "No connected users."
              else "Online users (" +:+ pretty (size (_clients st)) +:+ "): "
                   +:+ join ", " names))].
Proof.
  intros names.
  assert (names ≡ₚ (map_to_list (_clients st)).*1) as Hperm by apply sorted_perm.
  assert (length names = size (_clients st)) as Hlen
    by by rewrite Hperm, length_fmap, length_map_to_list.
  split_and!.
  - apply readonly_list_users.
  - rewrite Hperm. apply NoDup_fst_map_to_list.
  - intros n. rewrite Hperm, list_elem_of_fmap. split.
    + intros [[n' session] [-> H%elem_of_map_to_list]]. by exists session.
    + intros [session H]. exists (n, session). split; [done|].
      by apply elem_of_map_to_list.
  - apply sorted_sorted.
  - done.
  - unfold _list_users. rewrite trace_bind.
    change (result (with_lock _ st)) with names.
    change (state (with_lock _ st)) with st.
    rewrite <- Hlen. case_decide as He.
    + rewrite He, map_size_empty in Hlen. by destruct names.
    + destruct names as [|n names'] eqn:Hn; [|done].
      apply eq_sym, map_size_empty_iff in Hlen. done.
Qed.


(** ** Where the lock is held during a write *)

(** X17.  The complete list of the writes made under the lock.  Private
    messages, the user listing, the group fan-out, the system broadcast
    and the disconnect cleanup never write while the lock is held.  The
    three group operations, the group listing and a negotiation turn do so
    on their refusal paths and only there: creating a group that exists,
    joining one that does not, leaving one the caller is not in, listing
    when there is no group, and asking for a nickname that is taken. *)
Theorem writes_under_lock_exactly st :
  (∀ n g s,
     writes_outside_lock 0 (trace (_group_create n g s st))
     = bool_decide (_groups st !! g = None))
  ∧ (∀ n g s,
       writes_outside_lock 0 (trace (_group_join n g s st))
       = bool_decide (is_Some (_groups st !! g)))
  ∧ (∀ n g s,
       writes_outside_lock 0 (trace (_group_leave n g s st))
       = bool_decide (n ∈ default ∅ (_groups st !! g)))
  ∧ (∀ s,
       writes_outside_lock 0 (trace (_list_groups s st))
       = bool_decide (_groups st ≠ ∅))
  ∧ (∀ s data,
       writes_outside_lock 0 (trace (negotiate_turn s data st))
       = negb (negb (is_empty data)
               && negb (String.eqb (lower (strip data)) "/quit")
               && negb (nickname_rejected (strip data))
               && bool_decide (is_Some (_clients st !! strip data))))
  ∧ (∀ sender target message s,
       writes_outside_lock 0 (trace (_send_private sender target message s st)) = true)
  ∧ (∀ s, writes_outside_lock 0 (trace (_list_users s st)) = true)
  ∧ (∀ sender group_name message s,
       writes_outside_lock 0 (trace (_group_send sender group_name message s st))
       = true)
  ∧ (∀ message, writes_outside_lock 0 (trace (_broadcast_system message st)) = true)
  ∧ (∀ n, writes_outside_lock 0 (trace (_remove_client n st)) = true).
Proof.
  destruct (snapshot_paths_disciplined st) as (Hpm & Hlu & Hgs & Hbc).
  split_and!.
  - intros n g s. destruct st as [cs gs]. cbn [_groups].
    destruct (gs !! g) as [ms|] eqn:H.
    + by erewrite group_create_exists.
    + by rewrite group_create_fresh.
  - intros n g s. destruct st as [cs gs]. cbn [_groups].
    destruct (gs !! g) as [ms|] eqn:H.
    + erewrite group_join_exists by done. triple.
      by rewrite bool_decide_eq_true_2.
    + rewrite group_join_missing by done. triple.
      rewrite bool_decide_eq_false_2; [done|]. by intros [? ?].
  - intros n g s. destruct st as [cs gs]. cbn [_groups].
    destruct (gs !! g) as [ms|] eqn:H; cbn [default].
    + destruct (decide (n ∈ ms)).
      * erewrite group_leave_member by done. triple.
        by rewrite bool_decide_eq_true_2.
      * erewrite group_leave_stranger by done. triple.
        by rewrite bool_decide_eq_false_2.
    + rewrite group_leave_missing by done. triple.
      rewrite bool_decide_eq_false_2; [done|]. apply not_elem_of_empty.
  - intros s. unfold _list_groups. act_simpl. case_bool_decide as He.
    + by rewrite bool_decide_eq_false_2 by (intros ?; done).
    + by rewrite bool_decide_eq_true_2.
  - intros s data. destruct (is_empty data) eqn:Hd.
    { destruct data; [|done]. by rewrite turn_closed. }
    destruct (String.eqb (lower (strip data)) "/quit") eqn:Hq.
    { apply String.eqb_eq in Hq. by rewrite turn_quit. }
    apply String.eqb_neq in Hq.
    destruct (nickname_rejected (strip data)) eqn:Hr.
    { by rewrite turn_rejected. }
    destruct (_clients st !! strip data) as [session|] eqn:Hc.
    + erewrite turn_taken by done. triple.
      by rewrite bool_decide_eq_true_2.
    + rewrite turn_registered by done. triple.
      rewrite bool_decide_eq_false_2; [done|]. by intros [? ?].
  - intros. apply Hpm.
  - intros. apply Hlu.
  - intros. apply Hgs.
  - intros. apply Hbc.
  - intros n. destruct st as [cs gs]. destruct (cs !! n) eqn:H.
    + by erewrite remove_client_present.
    + by rewrite remove_client_absent.
Qed.

(** ** Group members are online *)

Section dispatch_for.
Context (P : ChatServer → Prop) (name : string).
Hypothesis create_ok : ∀ g s, preserves P (_group_create name g s).
Hypothesis join_ok : ∀ g s, preserves P (_group_join name g s).
Hypothesis leave_ok : ∀ g s, preserves P (_group_leave name g s).

(** The dispatcher keeps what the group operations of its caller keep. *)
Lemma process_command_preserves_for raw client_sock :
  preserves P (_process_command name raw client_sock).
Proof.
  unfold _process_command.
  repeat first
    [ apply preserves_ret
    | apply create_ok | apply join_ok | apply leave_ok
    | apply readonly_preserves; solve [auto with readonly]
    | apply preserves_bind; [|intros ?]
    | match goal with
      | |- preserves _ (match ?x with _ => _ end) => destruct x
      end ].
Qed.
End dispatch_for.

(** Every member of every group has a session. *)
Definition members_online (st : ChatServer) : Prop :=
  ∀ g ms n, _groups st !! g = Some ms → n ∈ ms → is_Some (_clients st !! n).

(** A call that may put its caller into a group is made under a nickname
    that has a session, as the calls of [_handle_client] are. *)
Definition issued_by_session (st : ChatServer) (o : op) : Prop :=
  match o with
  | Command name _ _ | GroupCreate name _ _ | GroupJoin name _ _ =>
      is_Some (_clients st !! name)
  | _ => True
  end.

(** A run in which this holds of every call, in the state the call is
    made in. *)
Fixpoint session_run (st : ChatServer) (ops : list op) : Prop :=
  match ops with
  | [] => True
  | o :: ops' => issued_by_session st o ∧ session_run (state (perform o st)) ops'
  end.

(** [members_online], for a caller that stays registered. *)
Definition online_with (name : string) (st : ChatServer) : Prop :=
  members_online st ∧ is_Some (_clients st !! name).

Lemma online_with_create name g s : preserves (online_with name) (_group_create name g s).
Proof.
  intros st [Hst Hn].
  destruct (group_create_cases name g s st) as [->|[_ ->]]; [done|].
  split; [|done]. intros g' ms n. cbn. rewrite lookup_insert. case_decide.
  - intros [= <-] ->%elem_of_singleton. done.
  - apply Hst.
Qed.

Lemma online_with_join name g s : preserves (online_with name) (_group_join name g s).
Proof.
  intros st [Hst Hn].
  destruct (group_join_cases name g s st) as [->|(ms0 & H0 & ->)]; [done|].
  split; [|done]. intros g' ms n. cbn. rewrite lookup_insert. case_decide.
  - intros [= <-] [Hin| ->%elem_of_singleton]%elem_of_union; [|done].
    by apply (Hst g ms0).
  - apply Hst.
Qed.

Lemma online_with_leave name g s : preserves (online_with name) (_group_leave name g s).
Proof.
  intros st [Hst Hn].
  destruct (group_leave_cases name g s st) as [->|(ms0 & H0 & _ & ->)]; [done|].
  split; [|done]. intros g' ms n. cbn. rewrite lookup_drop_member. case_decide.
  - unfold purged. case_decide; [done|]. intros [= <-] [Hin _]%elem_of_difference.
    by apply (Hst g ms0).
  - apply Hst.
Qed.

Lemma members_online_perform o st :
  members_online st → issued_by_session st o → members_online (state (perform o st)).
Proof.
  intros Hst Ho. destruct o; cbn [perform issued_by_session] in *;
    try (rewrite (readonly_preserves (λ st', st' = st) _); [done|
           solve [auto with readonly]|done]).
  - unfold discard. rewrite state_bind.
    destruct (turn_cases client_sock st data) as [[-> _]|(_ & _ & _ & ->)]; [done|].
    intros g ms n Hg Hin. cbn in *. rewrite lookup_insert. case_decide; [done|].
    by apply (Hst g ms).
  - unfold discard. rewrite state_bind.
    apply (process_command_preserves_for (online_with name) name);
      auto using online_with_create, online_with_join, online_with_leave.
    by split.
  - by apply (online_with_create name group_name client_sock st).
  - by apply (online_with_join name group_name client_sock st).
  - destruct (group_leave_cases name group_name client_sock st)
      as [->|(ms0 & H0 & _ & ->)]; [done|].
    intros g' ms n. cbn. rewrite lookup_drop_member. case_decide.
    + unfold purged. case_decide; [done|]. intros [= <-] [Hin _]%elem_of_difference.
      by apply (Hst group_name ms0).
    + apply Hst.
  - destruct (remove_client_cases name st) as [->|[_ ->]]; [done|].
    intros g ms n. cbn. rewrite lookup_omap.
    destruct (_groups st !! g) as [ms0|] eqn:Hg; [|done]. cbn. unfold purged.
    case_decide; [done|].
    intros [= <-] [Hin Hne%not_elem_of_singleton]%elem_of_difference.
    rewrite lookup_delete_ne by done. by apply (Hst g ms0).
Qed.

Lemma session_run_members_online ops st :
  members_online st → session_run st ops → members_online (state (run ops st)).
Proof.
  revert st. induction ops as [|o ops IH]; intros st Hst Hrun; [done|].
  destruct Hrun as [Ho Hrun]. unfold run. cbn [for_each]. rewrite state_bind.
  apply IH; [by apply members_online_perform|done].
Qed.

Lemma members_online_init : members_online init.
Proof. intros g ms n. cbn. by rewrite lookup_empty. Qed.

(** X18.  In a run from the empty dictionaries in which commands, group
    creations and group joins are made under nicknames that have a
    session at that moment, every member of every group has a session:
    the cleanup at the end of a connection leaves no stale member
    behind. *)
Theorem group_members_are_online ops :
  session_run init ops →
  ∀ g ms n,
    _groups (state (run ops init)) !! g = Some ms → n ∈ ms →
    is_Some (_clients (state (run ops init)) !! n).
Proof.
  intros Hrun. by apply session_run_members_online, Hrun; apply members_online_init.
Qed.

(** A and B connect, A creates [team], B joins, A disconnects: B, the
    member that is left, has a session. *)
Lemma group_members_are_online_witness :
  let ops :=
    [Negotiate Scenario.sock_A "A"; Negotiate Scenario.sock_B "B";
     Command "A" "/group create team" Scenario.sock_A;
     Command "B" "/group join team" Scenario.sock_B;
     RemoveClient "A"] in
  _groups (state (run ops init)) !! "team" = Some {["B"]}
  ∧ is_Some (_clients (state (run ops init)) !! "B").
Proof.
  intros ops.
  assert (_groups (state (run ops init)) !! "team" = Some {["B"]}) as Hteam
    by (vm_compute; reflexivity).
  split; [exact Hteam|].
  apply (group_members_are_online ops) with (g := "team") (ms := {["B"]});
    [|exact Hteam|by apply elem_of_singleton].
  cbn [session_run ops issued_by_session].
  split_and!; try done; vm_compute; eauto.
Defined.

(** ** The placeholder for a group without members *)

Lemma join_nonempty sep x l : x ≠ "" → is_empty (join sep (x :: l)) = false.
Proof.
  intros Hx. destruct x as [|c x]; [done|]. unfold join. cbn [String.concat].
  destruct l; [done|]. by rewrite append_cons.
Qed.

Lemma run_groups_nonempty ops : groups_nonempty (state (run ops init)).
Proof.
  apply run_preserves; [apply groups_nonempty_perform|].
  intros g ms. cbn. by rewrite lookup_empty.
Qed.

(** X19.  [_list_groups] formats a member list that comes out empty as
    "(empty)".  In a run from the empty dictionaries whose commands are
    issued under registered nicknames this never happens: every row is
    the group name followed by its members. *)
Theorem empty_placeholder_unreachable ops :
  session_run init ops →
  ∀ g ms,
    _groups (state (run ops init)) !! g = Some ms →
    group_line (g, ms) = g +:+ ": " +:+ join ", " (sorted (elements ms)).
Proof.
  intros Hrun g ms Hg. unfold group_line.
  pose proof (sorted_perm (elements ms)) as Hperm.
  destruct (sorted (elements ms)) as [|n l] eqn:Hs.
  { apply Permutation_nil_l in Hperm. symmetry in Hperm.
    apply elements_empty_inv in Hperm.
    by destruct (run_groups_nonempty ops g ms Hg); apply leibniz_equiv. }
  rewrite join_nonempty; [done|]. intros ->.
  assert ("" ∈ ms) as Hin.
  { apply elem_of_elements. rewrite <- Hperm. apply list_elem_of_here. }
  pose proof (session_run_members_online ops init members_online_init Hrun
                g ms "" Hg Hin) as Hon.
  by apply run_names_valid in Hon.
Qed.

(** The row of [team] after A has created it and B has joined. *)
Lemma empty_placeholder_unreachable_witness :
  let ops :=
    [Negotiate Scenario.sock_A "A"; Negotiate Scenario.sock_B "B";
     Command "A" "/group create team" Scenario.sock_A;
     Command "B" "/group join team" Scenario.sock_B] in
  group_line ("team", {["A"; "B"]})
  = "team" +:+ ": " +:+ join ", " (sorted (elements ({["A"; "B"]} : gset string))).
Proof.
  intros ops. apply (empty_placeholder_unreachable ops).
  - cbn [session_run ops issued_by_session].
    split_and!; try done; vm_compute; eauto.
  - vm_compute. reflexivity.
Defined.

(** ** Group names that commands can create *)

Ltac readonly_branches :=
  repeat first
    [ solve [auto with readonly]
    | apply readonly_bind; [|intros ?]
    | match goal with
      | |- readonly (if ?b then _ else _) => destruct b
      end ].

Ltac unchanged_leaf :=
  match goal with
  | |- _ → is_Some (_groups (state (?m ?st)) !! _) → _ =>
      let R := fresh "R" in
      assert (readonly m) as R by readonly_branches;
      rewrite (R st); intros ? [? ?]; congruence
  end.



(** ** What a method may emit *)

(** Every event of every trace of [m] satisfies [Q]. *)
Definition emits (Q : event → Prop) {A} (m : Act A) : Prop :=
  ∀ st, Forall Q (trace (m st)).

Section emits.
Context (Q : event → Prop).

Lemma emits_ret {A} (a : A) : emits Q (ret a).
Proof. intros st. constructor. Qed.

Lemma emits_bind {A B} (m : Act A) (k : A → Act B) :
  emits Q m → (∀ a, emits Q (k a)) → emits Q (bind m k).
Proof.
  intros Hm Hk st. rewrite trace_bind. apply Forall_app. split; [apply Hm|apply Hk].
Qed.

Lemma emits_emit e : Q e → emits Q (emit e).
Proof. intros He st. by repeat constructor. Qed.

Lemma emits_send_line s message : Q (Sendall s (line message)) → emits Q (_send_line s message).
Proof. apply emits_emit. Qed.

Lemma emits_get_clients : emits Q get_clients.
Proof. intros st. constructor. Qed.

Lemma emits_get_groups : emits Q get_groups.
Proof. intros st. constructor. Qed.

Lemma emits_set_clients cs : emits Q (set_clients cs).
Proof. intros st. constructor. Qed.

Lemma emits_set_groups gs : emits Q (set_groups gs).
Proof. intros st. constructor. Qed.

Lemma emits_with_lock {A} (body : Act A) :
  Q Acquire → Q Release → emits Q body → emits Q (with_lock body).
Proof.
  intros Ha Hr Hb. unfold with_lock.
  repeat first [ apply emits_bind; [|intros ?] | by apply emits_emit
               | apply emits_ret | exact Hb ].
Qed.

Lemma emits_for_each {A} (xs : list A) (body : A → Act unit) :
  (∀ x, emits Q (body x)) → emits Q (for_each xs body).
Proof.
  intros Hb. induction xs as [|x xs IH]; cbn [for_each].
  - apply emits_ret.
  - apply emits_bind; [apply Hb|intros _; apply IH].
Qed.
End emits.

Ltac emits_step :=
  first
    [ apply emits_ret
    | apply emits_get_clients | apply emits_get_groups
    | apply emits_set_clients | apply emits_set_groups
    | apply emits_send_line; done
    | apply emits_emit; done
    | apply emits_with_lock; [done|done|]
    | apply emits_for_each; intros ?
    | apply emits_bind; [|intros ?]
    | match goal with
      | |- emits _ (match ?x with _ => _ end) => destruct x
      | |- emits _ (let '(_, _) := ?x in _) => destruct x
      end ].

Ltac emits_solve := cbv zeta; repeat emits_step.

(** An event that is not a write to a socket other than [s]. *)
Definition only_to (s : sock) (e : event) : Prop :=
  match e with
  | Sendall s' _ => s' = s
  | _ => True
  end.

(** An event that closes nothing. *)
Definition not_close (e : event) : Prop :=
  match e with
  | Close _ => False
  | _ => True
  end.

Lemma turn_only_to s data : emits (only_to s) (negotiate_turn s data).
Proof. unfold negotiate_turn. emits_solve. Qed.

Lemma negotiate_name_only_to s stream : emits (only_to s) (_negotiate_name s stream).
Proof.
  unfold _negotiate_name. apply emits_bind; [by apply emits_send_line|intros _].
  induction stream as [|data rest IH]; cbn [negotiate_loop]; [apply emits_ret|].
  apply emits_bind; [apply turn_only_to|]. intros [| |c]; [apply emits_ret|done|apply emits_ret].
Qed.

Lemma sends_only_to s tr :
  Forall (only_to s) tr → Forall (λ d, d.1 = s) (sends tr).
Proof.
  intros Hall. apply Forall_forall. intros [s' data] Hin. unfold sends in Hin.
  apply list_elem_of_omap in Hin as (e & He & Hs).
  rewrite Forall_forall in Hall. apply Hall in He.
  destruct e; cbn in *; congruence.
Qed.

(** X21.  Nickname negotiation is between the server and the newcomer alone:
    whatever the newcomer sends, and whether the negotiation ends with a
    registration or not, every line [_negotiate_name] writes goes to the
    newcomer's socket. *)
Theorem negotiation_is_private client_sock stream st :
  Forall (λ d, d.1 = client_sock)
    (sends (trace (_negotiate_name client_sock stream st))).
Proof. apply sends_only_to, negotiate_name_only_to. Qed.

(** ** Commands that answer the sender alone *)

Lemma send_help_only_to s : emits (only_to s) (_send_help s).
Proof. unfold _send_help. emits_solve. Qed.

Lemma list_users_only_to s : emits (only_to s) (_list_users s).
Proof. unfold _list_users. emits_solve. Qed.

Lemma list_groups_only_to s : emits (only_to s) (_list_groups s).
Proof. unfold _list_groups. emits_solve. Qed.

Lemma group_create_only_to n g s : emits (only_to s) (_group_create n g s).
Proof. unfold _group_create. emits_solve. Qed.

Lemma group_join_only_to n g s : emits (only_to s) (_group_join n g s).
Proof. unfold _group_join. emits_solve. Qed.

Lemma group_leave_only_to n g s : emits (only_to s) (_group_leave n g s).
Proof. unfold _group_leave. emits_solve. Qed.

(** Whether a line is a complete "/msg" or "/group send" command, the
    two commands that write to other connections. *)
Definition fans_out (tokens : list string) : bool :=
  match tokens with
  | [] => false
  | cmd :: rest =>
      (String.eqb (lower cmd) "/msg" && (2 <=? length rest)%nat)
      || (String.eqb (lower cmd) "/group"
          && match rest with
             | action :: _ :: _ :: _ => String.eqb (lower action) "send"
             | _ => false
             end)
  end.

(** X22.  Apart from complete "/msg" and "/group send" commands, whatever a
    connection sends is answered on its own socket only: listings, help,
    group creation, joining and leaving, "/quit", usage and error
    messages are never seen by anyone else. *)
Theorem commands_answer_the_sender name raw client_sock st :
  fans_out (split (strip raw)) = false →
  Forall (λ d, d.1 = client_sock)
    (sends (trace (_process_command name raw client_sock st))).
Proof.
  intros Hf. apply sends_only_to. revert st.
  change (emits (only_to client_sock) (_process_command name raw client_sock)).
  unfold _process_command. revert Hf.
  destruct (split (strip raw)) as [|tok0 rest]; [intros _; apply emits_ret|].
  cbn [fans_out].
  destruct (String.eqb (lower tok0) "/help") eqn:E1.
  { intros _. apply emits_bind; [apply send_help_only_to|intros; apply emits_ret]. }
  destruct (String.eqb (lower tok0) "/list") eqn:E2.
  { intros _. apply emits_bind; [|intros; apply emits_ret].
    repeat first [ apply list_users_only_to | apply list_groups_only_to
                 | emits_step ]. }
  destruct (String.eqb (lower tok0) "/msg") eqn:E3.
  { destruct rest as [|t1 [|t2 rest]]; [| |done]; intros _; emits_solve. }
  destruct (String.eqb (lower tok0) "/group") eqn:E4; [|intros _; emits_solve].
  destruct rest as [|action [|g0 rest]]; [intros _; emits_solve..|].
  cbn [andb orb length Nat.ltb Nat.leb nth].
  intros Hf. apply emits_bind; [|intros; apply emits_ret].
  destruct (String.eqb (lower action) "create"); [apply group_create_only_to|].
  destruct (String.eqb (lower action) "join"); [apply group_join_only_to|].
  destruct (String.eqb (lower action) "leave"); [apply group_leave_only_to|].
  destruct rest as [|w rest]; [emits_solve|].
  rewrite Hf. emits_solve.
Qed.

(** A listing asked for by A goes to A alone. *)
Lemma commands_answer_the_sender_witness :
  Forall (λ d, d.1 = Scenario.sock_A)
    (sends (trace (_process_command "A" "/list groups" Scenario.sock_A Scenario.team))).
Proof. by apply commands_answer_the_sender. Defined.

(** ** Closing the socket *)

Lemma process_command_not_close name raw s : emits not_close (_process_command name raw s).
Proof.
  unfold _process_command, _send_help, _list_users, _list_groups, _send_private,
    _group_create, _group_join, _group_leave, _group_send, group_deliver.
  emits_solve.
Qed.

Lemma serve_loop_not_close name s stream : emits not_close (serve_loop name s stream).
Proof.
  induction stream as [|data rest IH]; cbn [serve_loop]; [apply emits_ret|].
  repeat first [ exact IH | apply process_command_not_close | emits_step ].
Qed.

Lemma negotiate_name_not_close s stream : emits not_close (_negotiate_name s stream).
Proof.
  unfold _negotiate_name. apply emits_bind; [by apply emits_send_line|intros _].
  induction stream as [|data rest IH]; cbn [negotiate_loop]; [apply emits_ret|].
  apply emits_bind; [unfold negotiate_turn; emits_solve|].
  intros [| |c]; [apply emits_ret|done|apply emits_ret].
Qed.

Lemma broadcast_trace message st :
  trace (_broadcast_system message st)
  = [Acquire; Release]
    ++ map (λ session, Sendall (socket session) (line ("[System] " +:+ message)))
         (map_to_list (_clients st)).*2.
Proof.
  unfold _broadcast_system. rewrite trace_bind.
  change (result (with_lock _ st)) with ((map_to_list (_clients st)).*2).
  change (state (with_lock _ st)) with st.
  by rewrite for_each_send_line.
Qed.

Lemma remove_client_trace name st : trace (_remove_client name st) = [Acquire; Release].
Proof.
  destruct st as [cs gs]. destruct (cs !! name) eqn:H.
  - by erewrite remove_client_present.
  - by rewrite remove_client_absent.
Qed.

(** A write to [s]. *)
Definition writes_to (s : sock) (e : event) : Prop :=
  ∃ data, e = Sendall s data.


